(** * tokencount: a shallow embedding of [scripts/tokencount.py]

    The script estimates the number of language-model tokens of a
    repository from the byte sizes of its relevant files.  This file
    embeds the script's functions in Rocq and states the properties of
    its specification as theorems about the embedding.

    Conventions of the embedding
    - a Python [int] is a [Z];
    - a Python [float] is a binary64 value, modelled exactly (module
      [PyFloat]): [a / b] on integers is the correctly rounded quotient
      (round half to even) and [int(x)] truncates towards zero;
    - a Python exception is an [exn] carried by the [result] monad;
    - a file name, a pattern or an argument is the [string] of its
      bytes, as the operating system hands it over (Python's
      [surrogateescape] decoding loses none of them); the literals of
      the script are ASCII;
    - the environment of the script is a [World]: the file system, a
      tree of nodes with permission bits, and, as functions, what the
      script obtains from outside its own text: [os.path.realpath], the
      output of [git], [fnmatch.fnmatch], the decoder of
      [bytes.decode], the encoder of the output stream and [str.lower],
      whose results depend on the Unicode tables and on the locale.  Of
      [str.lower] the world records three laws, which hold of the
      Python function: it is the ASCII lower-casing on ASCII text, it
      is idempotent, and it leaves a leading dot in place. *)

From Stdlib Require Import ZArith List String Ascii Bool Lia
  Permutation Sorted.
From Stdlib.Strings Require Import Byte.
From Stdlib Require DecimalString DecimalPos DecimalZ.
Import ListNotations.
Local Open Scope Z_scope.
Set Warnings "-register-all".

(** * Part I: the program *)

(** ** Exceptions and the error monad *)

Inductive exn : Type :=
| OverflowError
| ZeroDivisionError
| ValueError
| FileNotFoundError
| NotADirectoryError
| IsADirectoryError
| PermissionError
| RuntimeError
| UnicodeEncodeError.

Inductive result (A : Type) : Type :=
| Ok (a : A)
| Raise (e : exn).
Arguments Ok {A} a.
Arguments Raise {A} e.

Definition bind {A B : Type} (r : result A) (k : A -> result B) : result B :=
  match r with
  | Ok a => k a
  | Raise e => Raise e
  end.

Notation "x <- r ;; k" := (bind r (fun x => k))
  (at level 61, r at next level, right associativity).

(** ** Python floats (IEEE 754 binary64) *)

Module PyFloat.

(** [Finite m e] is the number [m * 2^e]; the functions below only
    build pairs with [|m| <= 2^53] and [-1074 <= e]. *)
Inductive float : Type :=
| Finite (m e : Z)
| Inf (negative : bool)
| NaN.

Definition emin : Z := -1074.

(** Nearest integer to the rational [n / d] ([0 < d]), ties to even. *)
Definition rne (n d : Z) : Z :=
  let f := n / d in
  let r := n mod d in
  if 2 * r <? d then f
  else if d <? 2 * r then f + 1
  else if Z.even f then f else f + 1.

(** [floor (log2 (n / d))] for [0 < n] and [0 < d]: the difference
    of the bit lengths, less one when [n / d] is below that power
    of two. *)
Definition ilog2_ratio (n d : Z) : Z :=
  let k := Z.log2 n - Z.log2 d in
  if n * 2 ^ Z.log2 d <? d * 2 ^ Z.log2 n then k - 1 else k.

(** The binary64 number nearest to [n / d] for [0 < n], [0 < d]:
    a 53-bit significand at the exponent of the quotient, or at the
    least exponent for subnormal results. *)
Definition round_pos (n d : Z) : Z * Z :=
  let e := Z.max (ilog2_ratio n d - 52) emin in
  (rne (n * 2 ^ Z.max 0 (- e)) (d * 2 ^ Z.max 0 e), e).

(** Whether [m * 2^e], as built by [round_pos], reaches [2^1024]. *)
Definition overflows (me : Z * Z) : bool :=
  let (m, e) := me in
  (971 <? e) || ((e =? 971) && (m =? 2 ^ 53)).

(** Rounding of the rational [n / d], [0 < d]; [None] on overflow. *)
Definition round_q (n d : Z) : option (Z * Z) :=
  if n =? 0 then Some (0, 0)
  else
    let (m, e) := round_pos (Z.abs n) d in
    if overflows (m, e) then None
    else Some (if n <? 0 then - m else m, e).

(** [a / b] on Python integers. *)
Definition true_divide (a b : Z) : result float :=
  if b =? 0 then Raise ZeroDivisionError
  else
    match round_q (if b <? 0 then - a else a) (Z.abs b) with
    | Some (m, e) => Ok (Finite m e)
    | None => Raise OverflowError
    end.

(** [x * y] on floats. *)
Definition mul (x y : float) : float :=
  match x, y with
  | Finite m1 e1, Finite m2 e2 =>
      let e := e1 + e2 in
      let n := m1 * m2 in
      match round_q (n * 2 ^ Z.max 0 e) (2 ^ Z.max 0 (- e)) with
      | Some (m, e') => Finite m e'
      | None => Inf (n <? 0)
      end
  | Finite m _, Inf s | Inf s, Finite m _ =>
      if m =? 0 then NaN else Inf (xorb s (m <? 0))
  | Inf s1, Inf s2 => Inf (xorb s1 s2)
  | NaN, _ | _, NaN => NaN
  end.

(** [int(x)]: truncation towards zero. *)
Definition to_int (x : float) : result Z :=
  match x with
  | Finite m e =>
      Ok (if 0 <=? e then m * 2 ^ e else Z.quot m (2 ^ (- e)))
  | Inf _ => Raise OverflowError
  | NaN => Raise ValueError
  end.

(** [round(x)] without [ndigits]: nearest integer, ties to even. *)
Definition round (x : float) : result Z :=
  match x with
  | Finite m e =>
      Ok (if 0 <=? e then m * 2 ^ e else rne m (2 ^ (- e)))
  | Inf _ => Raise OverflowError
  | NaN => Raise ValueError
  end.

Definition zero : float := Finite 0 0.
Definition hundred : float := Finite 100 0.

End PyFloat.

(** ** [estimate_tokens] *)

(** [low = int(size_bytes / 4)], [high = int(size_bytes / 3)]. *)
Definition estimate_tokens (size_bytes : Z) : result (Z * Z) :=
  low <- (q <- PyFloat.true_divide size_bytes 4 ;; PyFloat.to_int q) ;;
  high <- (q <- PyFloat.true_divide size_bytes 3 ;; PyFloat.to_int q) ;;
  Ok (low, high).

(** ** The summary line of [main] *)

(** [avg = int((t_low + t_high) / 2)] *)
Definition average (t_low t_high : Z) : result Z :=
  q <- PyFloat.true_divide (t_low + t_high) 2 ;; PyFloat.to_int q.

(** [spread = 0.0 if avg == 0 else (t_high - avg) / avg * 100] *)
Definition spread_of (avg t_high : Z) : result PyFloat.float :=
  if avg =? 0 then Ok PyFloat.zero
  else q <- PyFloat.true_divide (t_high - avg) avg ;;
       Ok (PyFloat.mul q PyFloat.hundred).

(** The two numbers of the line [Tokens: avg (+/-pct%)]:
    [avg] and [int(round(spread))]. *)
Definition summary (t_low t_high : Z) : result (Z * Z) :=
  avg <- average t_low t_high ;;
  spread <- spread_of avg t_high ;;
  pct <- PyFloat.round spread ;;
  Ok (avg, pct).

(** ** Strings *)

Local Open Scope string_scope.

Definition lower_ascii (c : ascii) : ascii :=
  let n := nat_of_ascii c in
  if (Nat.leb 65 n && Nat.leb n 90)%bool then ascii_of_nat (n + 32) else c.

(** Lower-casing of the letters [A-Z]: what [s.lower()] is on ASCII
    text.  On other text [str.lower] follows the Unicode tables and is
    a function of the world, [str_lower] below. *)
Fixpoint lower (s : string) : string :=
  match s with
  | EmptyString => EmptyString
  | String c s' => String (lower_ascii c) (lower s')
  end.

(** The second byte of the UTF-8 encoding of a capital letter of
    U+00C0-U+00DE, whose first byte is 195: all but the sign U+00D7. *)
Definition latin_capital (d : ascii) : bool :=
  let n := nat_of_ascii d in
  Nat.leb 128 n && Nat.leb n 158 && negb (Nat.eqb n 151).

(** What [s.lower()] is on text of the ASCII and Latin-1 characters:
    the letters [A-Z] and the accented capitals are lower-cased. *)
Fixpoint lower_latin (s : string) : string :=
  match s with
  | EmptyString => EmptyString
  | String c s' =>
      if Ascii.eqb c "195" then
        match s' with
        | String d s'' =>
            if latin_capital d
            then String c (String (ascii_of_nat (nat_of_ascii d + 32))
                                  (lower_latin s''))
            else String c (lower_latin s')
        | EmptyString => String c EmptyString
        end
      else String (lower_ascii c) (lower_latin s')
  end.

(** [s.isascii()] *)
Fixpoint is_ascii (s : string) : bool :=
  match s with
  | EmptyString => true
  | String c s' => Nat.ltb (nat_of_ascii c) 128 && is_ascii s'
  end.

(** The byte [b"\0"]. *)
Definition nul : ascii := Ascii.zero.

(** [s.startswith(".")] *)
Definition startswith_dot (s : string) : bool :=
  match s with
  | String c _ => Ascii.eqb c "."
  | EmptyString => false
  end.

(** [ch in s] for a character [ch]. *)
Fixpoint has_char (ch : ascii) (s : string) : bool :=
  match s with
  | EmptyString => false
  | String c s' => Ascii.eqb c ch || has_char ch s'
  end.

(** [pat in s] for strings. *)
Fixpoint is_substring (pat s : string) : bool :=
  String.prefix pat s ||
  match s with
  | EmptyString => false
  | String _ s' => is_substring pat s'
  end.

(** [s.rfind(".")], [None] for -1. *)
Fixpoint rfind_dot (s : string) : option nat :=
  match s with
  | EmptyString => None
  | String c s' =>
      match rfind_dot s' with
      | Some i => Some (S i)
      | None => if Ascii.eqb c "." then Some O else None
      end
  end.

(** [sep.join(l)] *)
Fixpoint join (sep : string) (l : list string) : string :=
  match l with
  | [] => ""
  | [x] => x
  | x :: rest => x ++ sep ++ join sep rest
  end.

(** [s.split(c)] *)
Fixpoint split_on (c : ascii) (s : string) : list string :=
  match s with
  | EmptyString => [EmptyString]
  | String a s' =>
      if Ascii.eqb a c then EmptyString :: split_on c s'
      else
        match split_on c s' with
        | [] => [String a EmptyString]
        | w :: ws => String a w :: ws
        end
  end.

Definition mem_string (x : string) (l : list string) : bool :=
  existsb (String.eqb x) l.

(** ** Paths ([pathlib.PurePosixPath]) *)

Record Path : Type := mkPath {
  absolute : bool;          (* anchored at "/" *)
  segments : list string    (* the components after the anchor *)
}.

(** [p.parts]: the anchor counts as a part. *)
Definition parts (p : Path) : list string :=
  if absolute p then "/" :: segments p else segments p.

(** [p.name] *)
Definition name (p : Path) : string := last (segments p) "".

(** [p.suffix] *)
Definition suffix (p : Path) : string :=
  let nm := name p in
  match rfind_dot nm with
  | Some i =>
      if (Nat.ltb 0 i && Nat.ltb i (String.length nm - 1))%bool
      then substring i (String.length nm - i) nm
      else ""
  | None => ""
  end.

(** [p.as_posix()] *)
Definition as_posix (p : Path) : string :=
  if absolute p then "/" ++ join "/" (segments p)
  else match segments p with
       | [] => "."
       | _ => join "/" (segments p)
       end.

Fixpoint strip_prefix (pre l : list string) : option (list string) :=
  match pre, l with
  | [], _ => Some l
  | x :: pre', y :: l' => if String.eqb x y then strip_prefix pre' l' else None
  | _ :: _, [] => None
  end.

(** [p.relative_to(root)]; [None] stands for [ValueError]. *)
Definition relative_to (p root : Path) : option Path :=
  if Bool.eqb (absolute p) (absolute root) then
    match strip_prefix (segments root) (segments p) with
    | Some rest => Some (mkPath false rest)
    | None => None
    end
  else None.

(** The components of a path given as text: empty components and
    ["."] are dropped. *)
Definition parse_segments (s : string) : list string :=
  filter (fun c => negb (String.eqb c "" || String.eqb c "."))
         (split_on "/" s).

(** [p / s] *)
Definition joinpath (p : Path) (s : string) : Path :=
  match s with
  | String "/" _ => mkPath true (parse_segments s)
  | _ => mkPath (absolute p) (segments p ++ parse_segments s)
  end.

(** ** The world: file system, [git] and [fnmatch] *)

Record fmeta : Type := mkFile {
  f_readable : bool;        (* may be opened for reading *)
  f_size : Z;               (* st_size *)
  f_bytes : list byte       (* what reading the file returns *)
}.

Record dmeta : Type := mkDir {
  d_listable : bool;        (* may be listed (read permission) *)
  d_searchable : bool;      (* may be traversed (search permission) *)
  d_size : Z                (* st_size *)
}.

Inductive node : Type :=
| File (m : fmeta)
| Dir (m : dmeta) (entries : list (string * node)).

Record World : Type := mkWorld {
  fs : node;                            (* the directory "/" *)
  cwd : list string;                    (* working directory *)
  realpath : Path -> result Path;       (* Path(p).resolve(): the path made
                                           absolute, symbolic links followed
                                           and ".." collapsed, also past a
                                           missing component; RuntimeError
                                           on a loop of symbolic links *)
  git_ls_files : Path -> option string; (* what `git -C root ls-files -z`
                                           writes; [None] when git fails *)
  utf8_ignore : string -> string;       (* p.decode("utf-8", "ignore") *)
  fnmatch : string -> string -> bool;   (* fnmatch.fnmatch name pat *)
  stdout_encodes : string -> bool;      (* whether the encoder of
                                           sys.stdout accepts the text *)
  str_lower : string -> string;         (* s.lower() *)
  str_lower_ascii :
    forall s, is_ascii s = true -> str_lower s = lower s;
  str_lower_idem :
    forall s, str_lower (str_lower s) = str_lower s;
  str_lower_dot :
    forall s, str_lower (String "." s) = String "." (str_lower s)
}.

Fixpoint find_entry (c : string) (entries : list (string * node))
  : option node :=
  match entries with
  | [] => None
  | (k, n) :: rest => if String.eqb k c then Some n else find_entry c rest
  end.

(** Path resolution with the errors of the system calls.  [up] holds
    the directories passed on the way down, the nearest first: [".."]
    leads back to the nearest, and stays put at the top. *)
Fixpoint resolve_from (up : list node) (n : node) (ps : list string)
  : result node :=
  match ps with
  | [] => Ok n
  | c :: ps' =>
      match n with
      | File _ => Raise NotADirectoryError
      | Dir m entries =>
          if d_searchable m then
            if String.eqb c "" || String.eqb c "." then resolve_from up n ps'
            else if String.eqb c ".." then
              match up with
              | [] => resolve_from [] n ps'
              | parent :: up' => resolve_from up' parent ps'
              end
            else
              match find_entry c entries with
              | Some n' => resolve_from (n :: up) n' ps'
              | None => Raise FileNotFoundError
              end
          else Raise PermissionError
      end
  end.

Definition resolve (n : node) (ps : list string) : result node :=
  resolve_from [] n ps.

Definition abs_segments (w : World) (p : Path) : list string :=
  if absolute p then segments p else (cwd w ++ segments p)%list.

(** [Path(s).resolve()] *)
Definition resolve_path (w : World) (p : Path) : result Path :=
  realpath w p.

(** The components of an absolute path with ["."] and [".."] taken
    out: [".."] takes back the component before it and is dropped at
    the top.  [acc] holds the components kept so far, the last first. *)
Fixpoint collapse (acc ps : list string) : list string :=
  match ps with
  | [] => rev acc
  | c :: ps' =>
      if String.eqb c "" || String.eqb c "." then collapse acc ps'
      else if String.eqb c ".." then collapse (tl acc) ps'
      else collapse (c :: acc) ps'
  end.

(** [os.path.realpath] on a file system without symbolic links, for
    the working directory [cwd_]. *)
Definition lexical_realpath (cwd_ : list string) (p : Path) : result Path :=
  Ok (mkPath true
        (collapse [] (if absolute p then segments p
                      else (cwd_ ++ segments p)%list))).

(** [p.stat().st_size] *)
Definition os_stat (w : World) (p : Path) : result Z :=
  n <- resolve (fs w) (abs_segments w p) ;;
  Ok (match n with File m => f_size m | Dir m _ => d_size m end).

(** [with p.open("rb") as f: f.read(k)] *)
Definition open_read (w : World) (p : Path) (k : nat) : result (list byte) :=
  n <- resolve (fs w) (abs_segments w p) ;;
  match n with
  | Dir _ _ => Raise IsADirectoryError
  | File m => if f_readable m then Ok (firstn k (f_bytes m))
              else Raise PermissionError
  end.

(** ** Constants *)

Definition DEFAULT_EXTS : list string :=
  [ ".py"; ".pyi";
    ".js"; ".jsx"; ".ts"; ".tsx"; ".mjs"; ".cjs";
    ".java"; ".kt"; ".kts"; ".scala";
    ".go"; ".rs"; ".c"; ".cc"; ".cpp"; ".h"; ".hpp";
    ".sh"; ".bash"; ".zsh";
    ".json"; ".yaml"; ".yml"; ".toml"; ".ini"; ".cfg"; ".conf";
    ".md"; ".rst"; ".txt"; ".adoc";
    ".sql";
    ".proto"; ".graphql" ].

Definition SKIP_FILENAMES : list string :=
  [ "package-lock.json"; "npm-shrinkwrap.json"; "yarn.lock";
    "pnpm-lock.yaml"; "pnpm-lock.yml"; "deno.lock"; "bun.lockb"; "bun.lock";
    "Pipfile.lock"; "poetry.lock"; "uv.lock";
    "Cargo.lock";
    "Gemfile.lock";
    "composer.lock";
    "go.sum"; "go.work.sum" ].

Definition PRUNE : list string :=
  [ ".git"; ".hg"; ".svn";
    "node_modules"; ".venv"; "venv";
    "__pycache__"; ".pytest_cache"; ".mypy_cache";
    "dist"; "build"; "target"; ".gradle";
    ".idea"; ".vscode" ].

Record FileStat : Type := mkFileStat {
  path : Path;
  size : Z;
  ext : string
}.

(** ** [is_probably_binary] *)

Definition NUL : byte := x00.

Definition has_nul (chunk : list byte) : bool :=
  existsb (Byte.eqb NUL) chunk.

Definition is_probably_binary (w : World) (p : Path) : bool :=
  match open_read w p 4096 with
  | Ok chunk => has_nul chunk
  | Raise _ => true            (* except (OSError, IOError) *)
  end.

(** ** File discovery *)

(** [os.walk] below a node, with the pruning of [walk_all_files]:
    the files of a directory, then its sub-directories in turn.  A
    directory that cannot be listed contributes nothing. *)
Fixpoint walk_node (d : Path) (n : node) {struct n} : list Path :=
  match n with
  | File _ => []
  | Dir m entries =>
      if d_listable m then
        (map (fun e => joinpath d (fst e))
             (filter (fun e => match snd e with File _ => true
                                            | Dir _ _ => false end) entries)
         ++
         (fix subdirs (es : list (string * node)) : list Path :=
            match es with
            | [] => []
            | (dn, child) :: es' =>
                match child with
                | Dir _ _ =>
                    if mem_string dn PRUNE || negb (d_searchable m)
                    then subdirs es'
                    else walk_node (joinpath d dn) child ++ subdirs es'
                | File _ => subdirs es'
                end
            end) entries)%list
      else []
  end.

Definition walk_all_files (w : World) (root : Path) : list Path :=
  match resolve (fs w) (abs_segments w root) with
  | Ok n => walk_node root n
  | Raise _ => []
  end.

(** [git_tracked_files]; [None] stands for its [RuntimeError]. *)
Definition git_tracked_files (w : World) (repo_root : Path)
  : option (list Path) :=
  match git_ls_files w repo_root with
  | None => None
  | Some out =>
      (* [if not p: continue] looks at the bytes, before they are decoded *)
      Some (map (fun p => joinpath repo_root (utf8_ignore w p))
                (filter (fun p => negb (String.eqb p ""))
                        (split_on nul out)))
  end.

(** ** [iter_filestats] *)

Record Config : Type := mkConfig {
  exts : list string;           (* a set: only membership is used *)
  root : Path;
  include_hidden : bool;
  binary_policy : string;
  exclude_globs : list string
}.

(** The checks of the loop body, in the order of the source; each
    [continue] of the loop is labelled with the check it belongs to. *)
Inductive stage : Type :=
| SHidden | SLockfile | SExclude | SExtension | SBinary | SSize.

Inductive verdict : Type :=
| Rejected (s : stage)
| Emitted (r : FileStat)
| Raised (e : exn).

(** File-system operations performed while a path is examined. *)
Inductive io_event : Type :=
| EvOpen (p : Path)
| EvStat (p : Path).

(** [rel]: [p.relative_to(root)], or [p] on [ValueError]. *)
Definition rel_of (root_ p : Path) : Path :=
  match relative_to p root_ with
  | Some r => r
  | None => p
  end.

(** [any(part.startswith(".") for part in rel.parts)] *)
Definition is_hidden (rel : Path) : bool :=
  existsb startswith_dot (parts rel).

(** [any(ch in pat for ch in "*?[]")] *)
Definition has_wildcard (pat : string) : bool :=
  existsb (fun ch => has_char ch pat) ["*"; "?"; "["; "]"]%char.

(** The loop over [exclude_globs]; the result is the flag [skip]. *)
Fixpoint exclude_loop (w : World) (pats : list string)
  (nm rel_posix : string) : bool :=
  match pats with
  | [] => false
  | pat :: rest =>
      if has_wildcard pat then
        if fnmatch w rel_posix pat || fnmatch w nm pat then true
        else exclude_loop w rest nm rel_posix
      else
        if is_substring pat nm || is_substring pat rel_posix then true
        else exclude_loop w rest nm rel_posix
  end.

Definition excluded (w : World) (cfg : Config) (p : Path) : bool :=
  match exclude_globs cfg with
  | [] => false
  | pats => exclude_loop w pats (name p) (as_posix (rel_of (root cfg) p))
  end.

(** One iteration of the loop of [iter_filestats]. *)
Definition classify (w : World) (cfg : Config) (p : Path)
  : verdict * list io_event :=
  let rel := rel_of (root cfg) p in
  if negb (include_hidden cfg) && is_hidden rel then (Rejected SHidden, [])
  else if mem_string (name p) SKIP_FILENAMES then (Rejected SLockfile, [])
  else if excluded w cfg p then (Rejected SExclude, [])
  else
    let e := str_lower w (suffix p) in
    if match exts cfg with [] => false | _ => negb (mem_string e (exts cfg)) end
    then (Rejected SExtension, [])
    else
      let sniff := String.eqb (binary_policy cfg) "skip" in
      let io1 := if sniff then [EvOpen p] else [] in
      if sniff && is_probably_binary w p then (Rejected SBinary, io1)
      else
        let io2 := (io1 ++ [EvStat p])%list in
        (* [not st] never holds: a stat result is a non-empty tuple *)
        match os_stat w p with
        | Raise FileNotFoundError => (Rejected SSize, io2)
        | Raise ex => (Raised ex, io2)
        | Ok sz =>
            if (sz <=? 0)%Z then (Rejected SSize, io2)
            else (Emitted (mkFileStat p sz
                             (if String.eqb e "" then "<none>" else e)),
                  io2)
        end.

(** The generator: the records yielded, and the exception that ended
    the iteration, if any. *)
Fixpoint iter_filestats (w : World) (cfg : Config) (paths : list Path)
  : list FileStat * option exn :=
  match paths with
  | [] => ([], None)
  | p :: ps =>
      match fst (classify w cfg p) with
      | Rejected _ => iter_filestats w cfg ps
      | Emitted r =>
          let (rs, e) := iter_filestats w cfg ps in (r :: rs, e)
      | Raised e => ([], Some e)
      end
  end.

(** ** Aggregation *)

(** [sorted(l, key=key, reverse=True)]: a stable sort, elements with
    equal keys keep their order. *)
Fixpoint insert_desc {A : Type} (key : A -> Z) (x : A) (l : list A)
  : list A :=
  match l with
  | [] => [x]
  | y :: l' => if (key x <? key y)%Z then y :: insert_desc key x l'
               else x :: l
  end.

Definition sorted_desc {A : Type} (key : A -> Z) (l : list A) : list A :=
  fold_right (insert_desc key) [] l.

(** [sum(s.size for s in l)] *)
Definition sum_sizes (l : list FileStat) : Z :=
  fold_left Z.add (map size l) 0%Z.

(** [sorted(stats, key=lambda s: s.size, reverse=True)[: max(top, 0)]] *)
Definition top_n (top : Z) (stats : list FileStat) : list FileStat :=
  firstn (Z.to_nat (Z.max top 0)) (sorted_desc size stats).

(** [by_ext[s.ext].append(s)] on a dictionary in insertion order. *)
Fixpoint add_group (s : FileStat) (groups : list (string * list FileStat))
  : list (string * list FileStat) :=
  match groups with
  | [] => [(ext s, [s])]
  | (k, v) :: rest =>
      if String.eqb k (ext s) then (k, (v ++ [s])%list) :: rest
      else (k, v) :: add_group s rest
  end.

Definition group_by_ext (stats : list FileStat)
  : list (string * list FileStat) :=
  fold_left (fun g s => add_group s g) stats [].

(** ** The report *)

Inductive cell : Type :=
| CLabel (s : string)          (* a column title of the script *)
| CStr (s : string)            (* an extension *)
| CInt (n : Z)                 (* fmt_int(n) *)
| CPath (p : Path).            (* str(p) *)

(** The lines written to the output stream, one per [print]; numbers
    are kept as numbers and the padding of table cells is left out. *)
Inductive out_line : Type :=
| LRoot (r : Path)             (* Root: ... *)
| LFilesCounted (n : Z)        (* Files counted: ... *)
| LBytesCounted (n : Z)        (* Bytes counted: ... *)
| LBlank
| LByExtension                 (* By extension: *)
| LTopHeader (n : Z)           (* Top n largest files: *)
| LRow (cells : list cell)
| LRule
| LTokens (avg pct : Z).       (* Tokens: avg (+/-pct%) *)

Inductive err_line : Type :=
| EWarning                     (* warning: Not a git repo ... *)
| EFallback                    (* falling back to --all scan. *)
| ETraceback (e : exn).        (* uncaught exception *)

(** The lines of [print_table(rows)]: the first row, the rule, the
    other rows. *)
Definition table_lines (rows : list (list cell)) : list out_line :=
  match rows with
  | [] => []
  | header :: body => LRow header :: LRule :: map LRow body
  end.

(** Output produced so far, and how the computation went on. *)
Definition io (A : Type) : Type := list out_line * result A.

Definition io_bind {A B : Type} (m : io A) (k : A -> io B) : io B :=
  match m with
  | (o1, Ok a) => let (o2, r) := k a in ((o1 ++ o2)%list, r)
  | (o1, Raise e) => (o1, Raise e)
  end.

Definition lift {A : Type} (r : result A) : io A := ([], r).

Notation "x <~ m ;; k" := (io_bind m (fun x => k))
  (at level 61, m at next level, right associativity).

(** The parts of a line that are taken from file names; the rest of a
    line is made of the script's own ASCII text, digits, commas and
    spaces. *)
Definition cell_texts (c : cell) : list string :=
  match c with
  | CStr s => [s]
  | CPath p => [as_posix p]
  | CLabel _ | CInt _ => []
  end.

Definition line_texts (l : out_line) : list string :=
  match l with
  | LRoot r => [as_posix r]
  | LRow cells => flat_map cell_texts cells
  | _ => []
  end.

(** [print(line)]: the line is written unless the encoder of the
    stream rejects a part of it, which raises [UnicodeEncodeError] and
    writes nothing of the line. *)
Definition print_line (w : World) (l : out_line) : io unit :=
  if forallb (stdout_encodes w) (line_texts l) then ([l], Ok tt)
  else ([], Raise UnicodeEncodeError).

(** A sequence of [print] statements. *)
Fixpoint print (w : World) (ls : list out_line) : io unit :=
  match ls with
  | [] => ([], Ok tt)
  | l :: rest => _ <~ print_line w l ;; print w rest
  end.

Definition print_table (w : World) (rows : list (list cell)) : io unit :=
  print w (table_lines rows).

Fixpoint mapM {A B : Type} (f : A -> result B) (l : list A)
  : result (list B) :=
  match l with
  | [] => Ok []
  | x :: rest => y <- f x ;; ys <- mapM f rest ;; Ok (y :: ys)
  end.

Definition ext_row (g : string * list FileStat) : result (list cell) :=
  let b := sum_sizes (snd g) in
  t <- estimate_tokens b ;;
  Ok [CStr (fst g); CInt (Z.of_nat (List.length (snd g))); CInt b;
      CInt (fst t); CInt (snd t)].

Definition file_row (root_ : Path) (s : FileStat) : result (list cell) :=
  t <- estimate_tokens (size s) ;;
  Ok [CInt (size s); CInt (fst t); CInt (snd t);
      CPath (rel_of root_ (path s))].

(** The part of [main] that follows [stats = list(iter_filestats(...))]. *)
Definition report (w : World) (root_ : Path) (top : Z)
  (stats : list FileStat) : io unit :=
  let total_bytes := sum_sizes stats in
  let total_files := Z.of_nat (List.length stats) in
  t <~ lift (estimate_tokens total_bytes) ;;
  _ <~ print w [LRoot root_; LFilesCounted total_files;
                LBytesCounted total_bytes; LBlank] ;;
  rows <~ lift (mapM ext_row
                  (sorted_desc (fun g => sum_sizes (snd g))
                               (group_by_ext stats))) ;;
  _ <~ print w [LByExtension] ;;
  _ <~ print_table w ([CLabel "ext"; CLabel "files"; CLabel "bytes";
                       CLabel "tok_low"; CLabel "tok_high"] :: rows) ;;
  _ <~ print w [LBlank] ;;
  let topn := top_n top stats in
  _ <~ match topn with
       | [] => print w []
       | _ =>
           _ <~ print w [LTopHeader (Z.of_nat (List.length topn))] ;;
           rows2 <~ lift (mapM (file_row root_) topn) ;;
           print_table w ([CLabel "bytes"; CLabel "tok_low";
                           CLabel "tok_high"; CLabel "path"] :: rows2)
       end ;;
  avg <~ lift (average (fst t) (snd t)) ;;
  spread <~ lift (spread_of avg (snd t)) ;;
  _ <~ print w [LBlank] ;;
  pct <~ lift (PyFloat.round spread) ;;
  print w [LTokens avg pct].

(** ** [main] *)

(** The parsed command line. *)
Record Args : Type := mkArgs {
  a_path : Path;
  a_all : bool;
  a_ext : option (list string);
  a_no_ext_filter : bool;
  a_include_hidden : bool;
  a_exclude : list string;
  a_binary : string;
  a_top : Z
}.

Definition default_args (p : Path) : Args :=
  mkArgs p false None false false [] "skip" 10.

(** What a run leaves behind. *)
Record Outcome : Type := mkOutcome {
  exit_code : Z;
  stdout : list out_line;
  stderr : list err_line
}.

(** The extension set chosen by the options. *)
Definition select_exts (w : World) (args : Args) : list string :=
  if a_no_ext_filter args then []
  else
    match a_ext args with
    | Some (x :: l) =>
        map (fun e => if startswith_dot e then str_lower w e
                      else "." ++ str_lower w e)
            (x :: l)
    | _ => DEFAULT_EXTS
    end.

(** The candidate paths, and what discovery writes to the error stream. *)
Definition discover (w : World) (args : Args) (root_ : Path)
  : list Path * list err_line :=
  if a_all args then (walk_all_files w root_, [])
  else
    match git_tracked_files w root_ with
    | Some ps => (ps, [])
    | None => (walk_all_files w root_, [EWarning; EFallback])
    end.

Definition config_of (w : World) (args : Args) (root_ : Path) : Config :=
  mkConfig (select_exts w args) root_ (a_include_hidden args)
           (a_binary args) (a_exclude args).

(** An exception that reaches the top ends the run with a traceback
    and the exit code 1; what was printed before stays printed. *)
Definition main (w : World) (args : Args) : Outcome :=
  match resolve_path w (a_path args) with
  | Raise e => mkOutcome 1 [] [ETraceback e]
  | Ok root_ =>
      let (paths, warnings) := discover w args root_ in
      match iter_filestats w (config_of w args root_) paths with
      | (_, Some e) => mkOutcome 1 [] (warnings ++ [ETraceback e])
      | (stats, None) =>
          match report w root_ (a_top args) stats with
          | (out, Ok _) => mkOutcome 0 out warnings
          | (out, Raise e) => mkOutcome 1 out (warnings ++ [ETraceback e])
          end
      end
  end.

(** The records counted by a run: [len(stats)] is the number printed
    as [Files counted]. *)
Definition total_files (w : World) (args : Args) : option Z :=
  match resolve_path w (a_path args) with
  | Raise _ => None
  | Ok root_ =>
      match iter_filestats w (config_of w args root_)
              (fst (discover w args root_)) with
      | (stats, None) => Some (Z.of_nat (List.length stats))
      | (_, Some _) => None
      end
  end.

(** A glob matcher for patterns made of [*], [?] and ordinary
    characters, on which it agrees with [fnmatch.fnmatch]. *)
Fixpoint glob (pat s : list ascii) {struct pat} : bool :=
  match pat with
  | [] => match s with [] => true | _ => false end
  | c :: pat' =>
      if Ascii.eqb c "*" then
        (fix star (t : list ascii) : bool :=
           glob pat' t || match t with [] => false | _ :: t' => star t' end) s
      else
        match s with
        | [] => false
        | a :: s' => (Ascii.eqb c "?" || Ascii.eqb a c) && glob pat' s'
        end
  end.

Definition simple_fnmatch (nm pat : string) : bool :=
  glob (list_ascii_of_string pat) (list_ascii_of_string nm).

(** * Part II: the vocabulary of the specification *)

(** ** Numbers *)

(** [2^k <= n / d], for [0 < d] and any integer [k]. *)
Definition ge_pow2 (n d k : Z) : Prop :=
  (d * 2 ^ Z.max 0 k <= n * 2 ^ Z.max 0 (- k))%Z.

(** [p] is an integer nearest to [num / den], for [0 < den]. *)
Definition nearest_int (p num den : Z) : Prop :=
  (Z.abs (2 * (p * den - num)) <= den)%Z.

(** The check of the summary line for the byte count [b], as a
    boolean, for byte counts small enough to be enumerated. *)
Definition summary_ok (b : Z) : bool :=
  let l := (b / 4)%Z in
  let h := (b / 3)%Z in
  match summary l h with
  | Ok (avg, pct) =>
      (avg =? (l + h) / 2)%Z
      && (if (avg =? 0)%Z then (pct =? 0)%Z
          else (Z.abs (2 * (pct * avg - 100 * (h - avg))) <=? avg)%Z)
  | Raise _ => false
  end.

(** ** The filter stage as a pipeline of checks *)

Inductive check_result : Type :=
| Pass
| Fail
| Error (e : exn).

Record check : Type := mkCheck {
  c_stage : stage;
  c_io : World -> Config -> Path -> list io_event;
  c_run : World -> Config -> Path -> check_result
}.

Definition fail_if (b : bool) : check_result := if b then Fail else Pass.

Definition ext_of (w : World) (p : Path) : string :=
  let e := str_lower w (suffix p) in if String.eqb e "" then "<none>" else e.

Definition c_hidden : check :=
  mkCheck SHidden (fun _ _ _ => [])
    (fun _ cfg p =>
       fail_if (negb (include_hidden cfg) && is_hidden (rel_of (root cfg) p))).

Definition c_lockfile : check :=
  mkCheck SLockfile (fun _ _ _ => [])
    (fun _ _ p => fail_if (mem_string (name p) SKIP_FILENAMES)).

Definition c_exclude : check :=
  mkCheck SExclude (fun _ _ _ => [])
    (fun w cfg p => fail_if (excluded w cfg p)).

Definition c_extension : check :=
  mkCheck SExtension (fun _ _ _ => [])
    (fun w cfg p =>
       fail_if (match exts cfg with
                | [] => false
                | _ => negb (mem_string (str_lower w (suffix p)) (exts cfg))
                end)).

Definition c_binary : check :=
  mkCheck SBinary
    (fun _ cfg p =>
       if String.eqb (binary_policy cfg) "skip" then [EvOpen p] else [])
    (fun w cfg p =>
       fail_if (String.eqb (binary_policy cfg) "skip"
                && is_probably_binary w p)).

(** The size check as the source has it: a missing file is rejected,
    any other error of [stat] is raised. *)
Definition c_size : check :=
  mkCheck SSize (fun _ _ p => [EvStat p])
    (fun w _ p =>
       match os_stat w p with
       | Raise FileNotFoundError => Fail
       | Raise e => Error e
       | Ok sz => fail_if (sz <=? 0)%Z
       end).

(** The size check as the specification words it: a file that cannot
    be examined is rejected, whatever the error. *)
Definition c_size_spec : check :=
  mkCheck SSize (fun _ _ p => [EvStat p])
    (fun w _ p =>
       match os_stat w p with
       | Raise _ => Fail
       | Ok sz => fail_if (sz <=? 0)%Z
       end).

(** Checks run in order; the first that does not pass decides, and a
    path that passes them all is emitted with its size and extension. *)
Fixpoint run_checks (cs : list check) (w : World) (cfg : Config) (p : Path)
  (io : list io_event) : verdict * list io_event :=
  match cs with
  | [] =>
      (match os_stat w p with
       | Ok sz => Emitted (mkFileStat p sz (ext_of w p))
       | Raise e => Raised e
       end, io)
  | c :: rest =>
      let io' := (io ++ c_io c w cfg p)%list in
      match c_run c w cfg p with
      | Pass => run_checks rest w cfg p io'
      | Fail => (Rejected (c_stage c), io')
      | Error e => (Raised e, io')
      end
  end.

Definition pipeline : list check :=
  [c_hidden; c_lockfile; c_exclude; c_extension; c_binary; c_size].

Definition spec_pipeline : list check :=
  [c_hidden; c_lockfile; c_exclude; c_extension; c_binary; c_size_spec].

(** ** Strings and patterns *)

(** [s] is in lower case: [s == s.lower()]. *)
Definition is_lowercase (w : World) (s : string) : Prop :=
  str_lower w s = s.

Definition wildcard_chars : list ascii := ["*"; "?"; "["; "]"]%char.

Definition contains_wildcard (pat : string) : Prop :=
  exists ch, In ch wildcard_chars /\ In ch (list_ascii_of_string pat).

(** [pat] is a substring of [s]. *)
Definition occurs_in (pat s : string) : Prop :=
  exists pre post, s = pre ++ pat ++ post.

Definition pattern_matches (w : World) (pat nm rel : string) : Prop :=
  (contains_wildcard pat
   /\ (fnmatch w rel pat = true \/ fnmatch w nm pat = true))
  \/ (~ contains_wildcard pat
      /\ (occurs_in pat nm \/ occurs_in pat rel)).

(** ** Worlds used as concrete inputs *)

(** [os.path.isdir(p)] *)
Definition is_directory (w : World) (p : Path) : bool :=
  match resolve (fs w) (abs_segments w p) with
  | Ok (Dir _ _) => true
  | _ => false
  end.

(** The report of a run that counted no file. *)
Definition empty_report (root_ : Path) : list out_line :=
  [LRoot root_; LFilesCounted 0; LBytesCounted 0; LBlank;
   LByExtension;
   LRow [CLabel "ext"; CLabel "files"; CLabel "bytes"; CLabel "tok_low";
         CLabel "tok_high"];
   LRule; LBlank; LBlank; LTokens 0 0].

Definition text_file (n : nat) : node :=
  File (mkFile true (Z.of_nat n) (repeat x61 n)).

Definition plain_dir (entries : list (string * node)) : node :=
  Dir (mkDir true true 4096) entries.

(** A directory that may be listed but not traversed. *)
Definition locked_dir (entries : list (string * node)) : node :=
  Dir (mkDir true false 4096) entries.

(** The laws of [str_lower], for the lower-casing of [A-Z]. *)
Lemma lower_ascii_idem (c : ascii) :
  lower_ascii (lower_ascii c) = lower_ascii c.
Proof. destruct c as [[] [] [] [] [] [] [] []]; reflexivity. Qed.

Lemma lower_idem (s : string) : lower (lower s) = lower s.
Proof.
  induction s as [|c s IH]; cbn [lower]; [reflexivity|].
  now rewrite lower_ascii_idem, IH.
Qed.

Lemma lower_dot (s : string) : lower (String "." s) = String "." (lower s).
Proof. reflexivity. Qed.

(** A world without symbolic links whose file names, arguments and
    listing are ASCII text, which every stream encodes and
    [decode] leaves as it is; [git] writes [listing], if any. *)
Definition ascii_world (tree : node) (cwd_ : list string)
  (listing : option string) : World :=
  mkWorld tree cwd_ (lexical_realpath cwd_) (fun _ => listing)
          (fun s => s) simple_fnmatch (fun _ => true)
          lower (fun _ _ => eq_refl) lower_idem lower_dot.

Definition world_of (tree : node) : World := ascii_world tree [] None.

(** The laws of [str_lower], for the lower-casing of Latin-1 text. *)
Lemma latin_capital_lowered (d : ascii) :
  latin_capital d = true ->
  let d' := ascii_of_nat (nat_of_ascii d + 32) in
  latin_capital d' = false /\ Ascii.eqb d' "195" = false
  /\ lower_ascii d' = d'.
Proof.
  destruct d as [[] [] [] [] [] [] [] []]; intros H;
    try discriminate H; repeat split.
Qed.

Lemma lower_ascii_plain (c : ascii) :
  Ascii.eqb c "195" = false ->
  Ascii.eqb (lower_ascii c) "195" = false
  /\ (latin_capital c = false -> latin_capital (lower_ascii c) = false).
Proof.
  destruct c as [[] [] [] [] [] [] [] []]; intros H;
    try discriminate H; split; trivial.
Qed.

Lemma ascii_not_lead (c : ascii) :
  Nat.ltb (nat_of_ascii c) 128 = true -> Ascii.eqb c "195" = false.
Proof.
  destruct c as [[] [] [] [] [] [] [] []]; intros H;
    try discriminate H; reflexivity.
Qed.

Lemma lower_latin_head (d : ascii) (s : string) :
  latin_capital d = false ->
  match lower_latin (String d s) with
  | String d0 _ => latin_capital d0 = false
  | EmptyString => True
  end.
Proof.
  intros H. cbn [lower_latin].
  destruct (Ascii.eqb d "195") eqn:E.
  - destruct s as [|e s]; [exact H|].
    destruct (latin_capital e); exact H.
  - now apply lower_ascii_plain.
Qed.

Lemma lower_latin_idem_upto (n : nat) :
  forall s, (String.length s <= n)%nat ->
            lower_latin (lower_latin s) = lower_latin s.
Proof.
  induction n as [|n IH]; intros s Hlen.
  - destruct s; [reflexivity | cbn in Hlen; lia].
  - destruct s as [|c s']; [reflexivity|]. cbn [String.length] in Hlen.
    cbn [lower_latin].
    destruct (Ascii.eqb c "195") eqn:Ec.
    + destruct s' as [|d s'']; [cbn [lower_latin]; now rewrite Ec|].
      cbn [String.length] in Hlen.
      destruct (latin_capital d) eqn:Ld.
      * destruct (latin_capital_lowered d Ld) as [A1 [A2 A3]].
        cbn [lower_latin]. rewrite Ec, A1.
        cbn [lower_latin]. rewrite A2, A3, IH by lia. reflexivity.
      * pose proof (lower_latin_head d s'' Ld) as Hh.
        pose proof (IH (String d s'') ltac:(cbn; lia)) as IHs.
        destruct (lower_latin (String d s'')) as [|d0 t0] eqn:T.
        -- cbn [lower_latin]. now rewrite Ec.
        -- change (lower_latin (String c (String d0 t0)))
             with (if Ascii.eqb c "195"
                   then if latin_capital d0
                        then String c
                               (String (ascii_of_nat (nat_of_ascii d0 + 32))
                                       (lower_latin t0))
                        else String c (lower_latin (String d0 t0))
                   else String (lower_ascii c)
                               (lower_latin (String d0 t0))).
           rewrite Ec, Hh, IHs. reflexivity.
    + destruct (lower_ascii_plain c Ec) as [A _].
      cbn [lower_latin]. rewrite A, lower_ascii_idem, IH by lia.
      reflexivity.
Qed.

Lemma lower_latin_idem (s : string) :
  lower_latin (lower_latin s) = lower_latin s.
Proof. apply (lower_latin_idem_upto (String.length s)). lia. Qed.

Lemma lower_latin_dot (s : string) :
  lower_latin (String "." s) = String "." (lower_latin s).
Proof. reflexivity. Qed.

Lemma lower_latin_ascii (s : string) :
  is_ascii s = true -> lower_latin s = lower s.
Proof.
  induction s as [|c s IH]; cbn [is_ascii lower_latin lower];
    [reflexivity|].
  intros H. apply andb_prop in H as [H1 H2].
  now rewrite (ascii_not_lead c H1), (IH H2).
Qed.

(** [.ET] and [.et] with an acute accent on the E (U+00C9, U+00E9),
    in UTF-8. *)
Definition ext_accent_upper : string :=
  String "." (String "195" (String "137" "T")).

Definition ext_accent_lower : string :=
  String "." (String "195" (String "169" "t")).

(** [/repo] holds [notes.ET], the E with its accent, and [main.go];
    the text of this world is Latin-1, and the output stream encodes
    all of it. *)
Definition w_accent : World :=
  mkWorld
    (plain_dir [("repo", plain_dir [("notes" ++ ext_accent_upper,
                                     text_file 30);
                                    ("main.go", text_file 400)])])
    [] (lexical_realpath []) (fun _ => None) (fun s => s) simple_fnmatch
    (fun _ => true) lower_latin lower_latin_ascii lower_latin_idem
    lower_latin_dot.

(** A name with the byte 255, which is not UTF-8. *)
Definition raw_name : string := String "b" (String "255" ".py").

(** [s] without its bytes 255. *)
Definition drop_255 (s : string) : string :=
  string_of_list_ascii
    (filter (fun c => negb (Ascii.eqb c "255")) (list_ascii_of_string s)).

(** [/repo] holds [a.py] and a file whose name has the byte 255, which
    the decoder drops and the output stream refuses; [git] lists that
    file, an entry made of the byte 255 alone, and [a.py]. *)
Definition w_raw : World :=
  mkWorld
    (plain_dir [("repo", plain_dir [("a.py", text_file 100);
                                    (raw_name, text_file 12)])])
    [] (lexical_realpath [])
    (fun _ => Some (raw_name ++ String nul (String "255" (String nul
                      ("a.py" ++ String nul "")))))
    drop_255 simple_fnmatch
    (fun s => negb (has_char "255" s))
    lower (fun _ _ => eq_refl) lower_idem lower_dot.

Definition repo : Path := mkPath true ["repo"].

(** [/repo] holds nothing but [yarn.lock]. *)
Definition w_yarn : World :=
  world_of (plain_dir [("repo", plain_dir [("yarn.lock", text_file 1000)])]).

(** [/repo] holds [Yarn.lock] and [main.go]. *)
Definition w_case : World :=
  world_of (plain_dir [("repo", plain_dir [("Yarn.lock", text_file 120);
                                           ("main.go", text_file 400)])]).

(** [/repo/locked] can be listed, but its files cannot be reached. *)
Definition w_locked : World :=
  world_of (plain_dir
              [("repo", plain_dir
                          [("locked", locked_dir [("a.py", text_file 100)])])]).

(** [git] still lists [a/b.py], but [/repo/a] is now a regular file. *)
Definition w_stale : World :=
  ascii_world (plain_dir [("repo", plain_dir [("a", text_file 10)])]) []
              (Some ("a/b.py" ++ String nul "")).


Definition args_include : Args :=
  mkArgs repo true None false false [] "include" 10.

Definition args_tracked_include : Args :=
  mkArgs repo false None false false [] "include" 10.

Definition args_all_skip : Args :=
  mkArgs repo true None false false [] "skip" 10.

Definition cfg_of_policy (policy : string) : Config :=
  mkConfig DEFAULT_EXTS repo false policy [].

Definition locked_file : Path := mkPath true ["repo"; "locked"; "a.py"].

Definition stale_file : Path := mkPath true ["repo"; "a"; "b.py"].


(** * Part I, continued: the text of the report *)

(** ** [fmt_int] *)

(** [str(n)] for an integer. *)
Definition py_str (n : Z) : string :=
  DecimalString.NilZero.string_of_int (Z.to_int n).

(** The separators of the format [","], on the digits taken from the
    least significant one: a comma after every third digit that is
    followed by another. *)
Fixpoint group3_rev (l : list ascii) : list ascii :=
  match l with
  | a :: b :: c :: ((_ :: _) as rest) =>
      a :: b :: c :: ","%char :: group3_rev rest
  | _ => l
  end.

Definition group3 (digits : string) : string :=
  string_of_list_ascii
    (rev (group3_rev (rev (list_ascii_of_string digits)))).

(** [f"{int(n):,}"] *)
Definition fmt_int (n : Z) : string :=
  (if (n <? 0)%Z then "-" else "") ++ group3 (py_str (Z.abs n)).

(** ** [print_table] as text *)

Fixpoint replicate (n : nat) (c : ascii) : string :=
  match n with
  | O => ""
  | S n' => String c (replicate n' c)
  end.

(** [s.ljust(w)] and [s.rjust(w)] *)
Definition ljust (w : nat) (s : string) : string :=
  s ++ replicate (w - String.length s) " ".

Definition rjust (w : nat) (s : string) : string :=
  replicate (w - String.length s) " " ++ s.

Inductive table_outcome : Type :=
| TablePrinted
| TableIndexError.

Fixpoint mapM_option {A B : Type} (f : A -> option B) (l : list A)
  : option (list B) :=
  match l with
  | [] => Some []
  | x :: rest =>
      match f x with
      | None => None
      | Some y =>
          match mapM_option f rest with
          | None => None
          | Some ys => Some (y :: ys)
          end
      end
  end.

(** [max(len(r[i]) for r in rows)]; [None] stands for [IndexError]. *)
Definition column_width (rows : list (list string)) (i : nat) : option nat :=
  match mapM_option (fun r => nth_error r i) rows with
  | None => None
  | Some cells => Some (fold_right Nat.max O (map String.length cells))
  end.

(** [widths], for a table with a first row. *)
Definition table_widths (rows : list (list string)) : option (list nat) :=
  match rows with
  | [] => Some []
  | header :: _ =>
      mapM_option (column_width rows) (seq 0 (List.length header))
  end.

(** The text of one row: the first cell padded on the right, the
    others on the left, joined by two spaces. *)
Definition format_row (widths : list nat) (r : list string) : option string :=
  match
    mapM_option
      (fun i =>
         match nth_error r i, nth_error widths i with
         | Some c, Some w =>
             Some (match i with O => ljust w c | S _ => rjust w c end)
         | _, _ => None
         end)
      (seq 0 (List.length r))
  with
  | None => None
  | Some cells => Some (join "  " cells)
  end.

(** ["  ".join("-" * w for w in widths)] *)
Definition rule_line (widths : list nat) : string :=
  join "  " (map (fun w => replicate w "-") widths).

Fixpoint print_rows (widths : list nat) (first : bool)
  (rows : list (list string)) : list string * table_outcome :=
  match rows with
  | [] => ([], TablePrinted)
  | r :: rest =>
      match format_row widths r with
      | None => ([], TableIndexError)
      | Some line =>
          let (ls, o) := print_rows widths false rest in
          (line :: (if first then [rule_line widths] else []) ++ ls, o)%list
      end
  end.

(** The lines printed by [print_table(rows)], and whether it raised. *)
Definition print_table_lines (rows : list (list string))
  : list string * table_outcome :=
  match rows with
  | [] => ([], TablePrinted)
  | _ =>
      match table_widths rows with
      | None => ([], TableIndexError)
      | Some widths => print_rows widths true rows
      end
  end.

(** * Part II, continued *)

(** [l1] is [l2] with some elements left out. *)
Inductive subseq {A : Type} : list A -> list A -> Prop :=
| subseq_nil : subseq [] []
| subseq_skip (x : A) (l1 l2 : list A) : subseq l1 l2 -> subseq l1 (x :: l2)
| subseq_keep (x : A) (l1 l2 : list A) :
    subseq l1 l2 -> subseq (x :: l1) (x :: l2).

(** [s.replace(",", "")] *)
Definition drop_commas (s : string) : string :=
  string_of_list_ascii
    (filter (fun c => negb (Ascii.eqb c ",")) (list_ascii_of_string s)).

(** The integer written in [s], commas apart. *)
Definition parse_int (s : string) : option Z :=
  option_map Z.of_int
    (DecimalString.NilZero.int_of_string (drop_commas s)).

(** The name of a directory entry: not empty, not ["."], no slash. *)
Definition simple_name (s : string) : bool :=
  negb (has_char "/" s) && negb (String.eqb s "") && negb (String.eqb s ".").

(** A listed name made of such components, separated by slashes. *)
Definition normal_name (s : string) : bool :=
  forallb simple_name (split_on "/" s).

(** Every entry of the tree has such a name. *)
Fixpoint simple_tree (n : node) : bool :=
  match n with
  | File _ => true
  | Dir _ entries =>
      (fix all (es : list (string * node)) : bool :=
         match es with
         | [] => true
         | (k, child) :: es' => simple_name k && simple_tree child && all es'
         end) entries
  end.

(** The byte sums of the groups, added up. *)
Definition sum_groups (groups : list (string * list FileStat)) : Z :=
  fold_right Z.add 0%Z (map (fun g => sum_sizes (snd g)) groups).

(** What the dictionary [by_ext] holds after the records [l]. *)
Definition groups_of (g : list (string * list FileStat))
  (l : list FileStat) : Prop :=
  NoDup (map fst g)
  /\ (forall k v, In (k, v) g ->
        v <> [] /\ v = filter (fun s => String.eqb (ext s) k) l)
  /\ (forall s, In s l -> In (ext s) (map fst g)).


(** The summary of [b] bytes reports 14 percent. *)
Definition spread14_ok (b : Z) : bool :=
  match summary (b / 4) (b / 3) with
  | Ok (avg, pct) => (avg =? (b / 4 + b / 3) / 2)%Z && (pct =? 14)%Z
  | Raise _ => false
  end.

(** ** More worlds *)

(** [/repo] with a source file, a hidden directory, a binary file, a
    document and a file without suffix. *)
Definition w_mixed : World :=
  world_of
    (plain_dir
       [("repo",
         plain_dir
           [("main.go", text_file 400);
            (".cache", plain_dir [("data.py", text_file 10)]);
            ("blob.py", File (mkFile true 5 [x61; x00; x62; x63; x64]));
            ("notes.md", text_file 30);
            ("Makefile", text_file 70);
            ("build", plain_dir [("out.py", text_file 9)]);
            ("src", plain_dir [("a.py", text_file 100)])])]).

Definition mixed_paths : list Path := walk_all_files w_mixed repo.

(** * Part III: properties *)

Local Close Scope string_scope.

Ltac eval_pows :=
  repeat match goal with
         | |- context [2 ^ ?k] =>
             let v := eval vm_compute in (2 ^ k) in
             progress change (2 ^ k) with v
         | H : context [2 ^ ?k] |- _ =>
             let v := eval vm_compute in (2 ^ k) in
             progress change (2 ^ k) with v in H
         end.

Lemma bind_ok_inv {A B : Type} (r : result A) (k : A -> result B) (b : B) :
  bind r k = Ok b -> exists a, r = Ok a /\ k a = Ok b.
Proof. destruct r as [a|e]; cbn; [eauto | discriminate]. Qed.

(** ** Rounding *)

Section RoundingFacts.
Import PyFloat.

Lemma rne_bounds (n d : Z) :
  0 < d -> 2 * n - d <= 2 * d * rne n d <= 2 * n + d.
Proof.
  intros Hd. unfold rne.
  pose proof (Z.div_mod n d ltac:(lia)) as Hdm.
  pose proof (Z.mod_pos_bound n d Hd) as Hr.
  set (f := n / d) in *. set (r := n mod d) in *.
  destruct (2 * r <? d) eqn:E1; [apply Z.ltb_lt in E1; nia|].
  apply Z.ltb_ge in E1.
  destruct (d <? 2 * r) eqn:E2; [apply Z.ltb_lt in E2; nia|].
  apply Z.ltb_ge in E2.
  destruct (Z.even f); nia.
Qed.

(** An integer bracket of the quotient is a bracket of its rounding. *)
Lemma rne_bracket (n d lo hi : Z) :
  0 < d -> lo * d <= n <= hi * d -> lo <= rne n d <= hi.
Proof.
  intros Hd H. pose proof (rne_bounds n d Hd). nia.
Qed.

Lemma pow2_pos (k : Z) : 0 < 2 ^ k \/ (k < 0 /\ 2 ^ k = 0).
Proof.
  destruct (Z.neg_nonneg_cases k) as [H|H].
  - right. split; [lia | now apply Z.pow_neg_r].
  - left. apply Z.pow_pos_nonneg; lia.
Qed.

Lemma scaled_le (n d a b : Z) :
  0 <= a -> 0 <= b ->
  (d * 2 ^ Z.max 0 (a - b) <= n * 2 ^ Z.max 0 (- (a - b))
   <-> d * 2 ^ a <= n * 2 ^ b).
Proof.
  intros Ha Hb.
  destruct (Z.le_ge_cases b a) as [H|H].
  - replace (Z.max 0 (a - b)) with (a - b) by lia.
    replace (Z.max 0 (- (a - b))) with 0 by lia.
    replace a with ((a - b) + b) at 2 by lia.
    rewrite Z.pow_add_r by lia. rewrite Z.pow_0_r.
    assert (0 < 2 ^ b) by (apply Z.pow_pos_nonneg; lia).
    split; intros; nia.
  - replace (Z.max 0 (a - b)) with 0 by lia.
    replace (Z.max 0 (- (a - b))) with (b - a) by lia.
    replace b with ((b - a) + a) at 2 by lia.
    rewrite Z.pow_add_r by lia. rewrite Z.pow_0_r.
    assert (0 < 2 ^ a) by (apply Z.pow_pos_nonneg; lia).
    split; intros; nia.
Qed.

Lemma ge_pow2_step (n d k : Z) :
  0 < n -> 0 < d -> ge_pow2 n d (k + 1) -> ge_pow2 n d k.
Proof.
  unfold ge_pow2. intros Hn Hd H.
  destruct (Z.lt_ge_cases k 0) as [Hk|Hk].
  - replace (Z.max 0 k) with 0 by lia.
    replace (Z.max 0 (k + 1)) with 0 in H by lia.
    replace (Z.max 0 (- k)) with (Z.max 0 (- (k + 1)) + 1) by lia.
    rewrite Z.pow_add_r by lia.
    assert (0 < 2 ^ Z.max 0 (- (k + 1))) by (apply Z.pow_pos_nonneg; lia).
    change (2 ^ 1) with 2. nia.
  - replace (Z.max 0 (- k)) with 0 by lia.
    replace (Z.max 0 (- (k + 1))) with 0 in H by lia.
    replace (Z.max 0 (k + 1)) with (Z.max 0 k + 1) in H by lia.
    rewrite Z.pow_add_r in H by lia.
    assert (0 < 2 ^ Z.max 0 k) by (apply Z.pow_pos_nonneg; lia).
    change (2 ^ 1) with 2 in H. nia.
Qed.

Lemma ge_pow2_antitone (n d j k : Z) :
  0 < n -> 0 < d -> j <= k -> ge_pow2 n d k -> ge_pow2 n d j.
Proof.
  intros Hn Hd Hjk.
  replace k with (j + Z.of_nat (Z.to_nat (k - j))) by lia.
  induction (Z.to_nat (k - j)) as [|i IH]; intros H.
  - now replace (j + Z.of_nat 0) with j in H by lia.
  - apply IH. apply ge_pow2_step; trivial.
    now replace (j + Z.of_nat i + 1) with (j + Z.of_nat (S i)) by lia.
Qed.

Lemma ilog2_ratio_spec (n d : Z) :
  0 < n -> 0 < d ->
  ge_pow2 n d (ilog2_ratio n d) /\ ~ ge_pow2 n d (ilog2_ratio n d + 1).
Proof.
  intros Hn Hd. unfold ilog2_ratio.
  pose proof (Z.log2_spec n Hn) as [Hn1 Hn2].
  pose proof (Z.log2_spec d Hd) as [Hd1 Hd2].
  pose proof (Z.log2_nonneg n) as Ha.
  pose proof (Z.log2_nonneg d) as Hb.
  set (a := Z.log2 n) in *. set (b := Z.log2 d) in *.
  rewrite <- Z.add_1_r in Hn2, Hd2.
  rewrite Z.pow_add_r in Hn2, Hd2 by lia. change (2 ^ 1) with 2 in *.
  assert (0 < 2 ^ a) by (apply Z.pow_pos_nonneg; lia).
  assert (0 < 2 ^ b) by (apply Z.pow_pos_nonneg; lia).
  unfold ge_pow2.
  destruct (n * 2 ^ b <? d * 2 ^ a) eqn:T.
  - apply Z.ltb_lt in T. split.
    + replace (a - b - 1) with (a - (b + 1)) by lia.
      apply scaled_le; try lia.
      rewrite Z.pow_add_r by lia. change (2 ^ 1) with 2. nia.
    + replace (a - b - 1 + 1) with (a - b) by lia.
      rewrite scaled_le by lia. lia.
  - apply Z.ltb_ge in T. split.
    + apply scaled_le; lia.
    + replace (a - b + 1) with ((a + 1) - b) by lia.
      rewrite scaled_le by lia.
      rewrite Z.pow_add_r by lia. change (2 ^ 1) with 2. nia.
Qed.

Lemma ilog2_ratio_unique (n d j : Z) :
  0 < n -> 0 < d ->
  ge_pow2 n d j -> ~ ge_pow2 n d (j + 1) -> ilog2_ratio n d = j.
Proof.
  intros Hn Hd H1 H2.
  destruct (ilog2_ratio_spec n d Hn Hd) as [S1 S2].
  destruct (Z.lt_trichotomy (ilog2_ratio n d) j) as [L|[E|L]]; trivial.
  - exfalso. apply S2.
    apply (ge_pow2_antitone n d _ j); trivial; lia.
  - exfalso. apply H2.
    apply (ge_pow2_antitone n d _ (ilog2_ratio n d)); trivial; lia.
Qed.


Lemma rne_nonneg (n d : Z) : 0 <= n -> 0 < d -> 0 <= rne n d.
Proof.
  intros Hn Hd. pose proof (rne_bounds n d Hd). nia.
Qed.

(** Rounding at [s] fractional bits and truncating gives the floor of
    the quotient, as long as the grid is finer than [1 / d]. *)
Lemma div_after_round (n d s : Z) :
  0 <= n -> 0 < d -> 0 <= s -> d < 2 ^ (s + 1) ->
  rne (n * 2 ^ s) d / 2 ^ s = n / d.
Proof.
  intros Hn Hd Hs Hfine.
  rewrite Z.pow_add_r in Hfine by lia. change (2 ^ 1) with 2 in Hfine.
  assert (HP : 0 < 2 ^ s) by (apply Z.pow_pos_nonneg; lia).
  set (P := 2 ^ s) in *.
  pose proof (rne_bounds (n * P) d Hd) as Hm.
  set (m := rne (n * P) d) in *.
  pose proof (Z.div_mod n d ltac:(lia)) as Hdm.
  pose proof (Z.mod_pos_bound n d Hd) as Hr.
  set (Q := n / d) in *. set (R := n mod d) in *.
  assert (HRP : 0 <= R * P <= (d - 1) * P) by nia.
  clearbody Q R m. symmetry.
  apply Z.div_unique with (r := m - Q * P); [|ring].
  left. split.
  - assert (0 <= 2 * d * (m - Q * P) + d) by nia. nia.
  - assert (2 * d * (m - Q * P) < 2 * d * P) by nia. nia.
Qed.

(** [int(n / d)] is [n // d] as long as [n] is below [2^53]. *)
Lemma to_int_true_divide (n d : Z) :
  0 <= n < 2 ^ 53 -> 2 <= d < 2 ^ 53 ->
  (q <- true_divide n d ;; to_int q) = Ok (n / d).
Proof.
  intros Hn Hd. unfold true_divide, round_q.
  replace (d =? 0) with false by (symmetry; apply Z.eqb_neq; lia).
  replace (d <? 0) with false by (symmetry; apply Z.ltb_ge; lia).
  rewrite (Z.abs_eq d) by lia.
  destruct (n =? 0) eqn:E0.
  { apply Z.eqb_eq in E0. subst n. reflexivity. }
  apply Z.eqb_neq in E0. rewrite (Z.abs_eq n) by lia.
  unfold round_pos.
  destruct (ilog2_ratio_spec n d ltac:(lia) ltac:(lia)) as [S1 S2].
  set (k := ilog2_ratio n d) in *.
  unfold ge_pow2 in S1, S2.
  (* the exponent is not clamped and is negative *)
  assert (Hk1 : - 54 < k).
  { destruct (Z.le_gt_cases k (- 54)) as [L|L]; [exfalso|lia].
    apply S2.
    replace (Z.max 0 (k + 1)) with 0 by lia.
    replace (Z.max 0 (- (k + 1))) with (53 + (- (k + 1) - 53)) by lia.
    rewrite Z.pow_add_r by lia.
    assert (0 < 2 ^ (- (k + 1) - 53)) by (apply Z.pow_pos_nonneg; lia).
    rewrite Z.pow_0_r. nia. }
  assert (Hk2 : k < 52).
  { destruct (Z.lt_ge_cases k 52) as [L|L]; [lia|exfalso].
    replace (Z.max 0 k) with (52 + (k - 52)) in S1 by lia.
    replace (Z.max 0 (- k)) with 0 in S1 by lia.
    rewrite Z.pow_add_r in S1 by lia.
    assert (0 < 2 ^ (k - 52)) by (apply Z.pow_pos_nonneg; lia).
    rewrite Z.pow_0_r in S1.
    change (2 ^ 53) with (2 * 2 ^ 52) in Hn.
    assert (0 < 2 ^ 52) by (apply Z.pow_pos_nonneg; lia).
    nia. }
  unfold emin. replace (Z.max (k - 52) (-1074)) with (k - 52) by lia.
  set (s := 52 - k).
  replace (Z.max 0 (- (k - 52))) with s by lia.
  replace (Z.max 0 (k - 52)) with 0 by lia.
  rewrite Z.pow_0_r, Z.mul_1_r.
  assert (Hfine : d < 2 ^ (s + 1)).
  { destruct (Z.lt_ge_cases k 0) as [L|L].
    - replace (Z.max 0 k) with 0 in S1 by lia.
      replace (Z.max 0 (- k)) with (- k) in S1 by lia.
      rewrite Z.pow_0_r in S1.
      replace (s + 1) with (53 + - k) by lia.
      rewrite Z.pow_add_r by lia.
      assert (0 < 2 ^ (- k)) by (apply Z.pow_pos_nonneg; lia).
      nia.
    - replace (Z.max 0 k) with k in S1 by lia.
      replace (Z.max 0 (- k)) with 0 in S1 by lia.
      rewrite Z.pow_0_r in S1.
      assert (E53 : 2 ^ 53 = 2 ^ (s + 1) * 2 ^ k).
      { rewrite <- Z.pow_add_r by lia. f_equal. lia. }
      assert (0 < 2 ^ k) by (apply Z.pow_pos_nonneg; lia).
      assert (0 < 2 ^ (s + 1)) by (apply Z.pow_pos_nonneg; lia).
      rewrite E53 in Hn. nia. }
  unfold overflows.
  replace (971 <? k - 52) with false by (symmetry; apply Z.ltb_ge; lia).
  replace (k - 52 =? 971) with false by (symmetry; apply Z.eqb_neq; lia).
  replace (n <? 0) with false by (symmetry; apply Z.ltb_ge; lia).
  cbn [orb andb bind to_int].
  replace (0 <=? k - 52) with false by (symmetry; apply Z.leb_gt; lia).
  replace (- (k - 52)) with s by lia.
  f_equal.
  rewrite Z.quot_div_nonneg.
  - apply div_after_round; lia.
  - apply rne_nonneg; [|lia].
    assert (0 < 2 ^ s) by (apply Z.pow_pos_nonneg; lia). nia.
  - apply Z.pow_pos_nonneg; lia.
Qed.

(** Rounding at [s] fractional bits and truncating stays within one
    of the quotient, however coarse the grid. *)
Lemma near_after_round (n d s : Z) :
  0 <= n -> 0 < d -> 0 <= s ->
  n - d < d * (rne (n * 2 ^ s) d / 2 ^ s)
  /\ 2 * d * (rne (n * 2 ^ s) d / 2 ^ s) <= 2 * n + d.
Proof.
  intros Hn Hd Hs.
  assert (HP : 0 < 2 ^ s) by (apply Z.pow_pos_nonneg; lia).
  set (P := 2 ^ s) in *.
  pose proof (rne_bounds (n * P) d Hd) as Hm.
  set (m := rne (n * P) d) in *.
  pose proof (Z.div_mod m P ltac:(lia)) as Hdm.
  pose proof (Z.mod_pos_bound m P HP) as Hr.
  set (q := m / P) in *. set (r := m mod P) in *.
  clearbody q r m. split.
  - assert ((n - d) * P < d * q * P) by nia. nia.
  - assert (2 * d * q * P <= (2 * n + d) * P) by nia. nia.
Qed.

(** Beyond [2^53] the quotient is rounded before it is truncated, but
    [int(n / d)] stays within one of [n / d] as long as the quotient
    is below [2^53]. *)
Lemma to_int_true_divide_near (n d : Z) :
  2 <= d < 2 ^ 53 -> 0 <= n < d * 2 ^ 53 ->
  exists q,
    (x <- true_divide n d ;; to_int x) = Ok q
    /\ n - d < d * q /\ 2 * d * q <= 2 * n + d.
Proof.
  intros Hd Hn. unfold true_divide, round_q.
  replace (d =? 0) with false by (symmetry; apply Z.eqb_neq; lia).
  replace (d <? 0) with false by (symmetry; apply Z.ltb_ge; lia).
  rewrite (Z.abs_eq d) by lia.
  destruct (n =? 0) eqn:E0.
  { apply Z.eqb_eq in E0. subst n. exists 0. split; [reflexivity | lia]. }
  apply Z.eqb_neq in E0. rewrite (Z.abs_eq n) by lia.
  unfold round_pos.
  destruct (ilog2_ratio_spec n d ltac:(lia) ltac:(lia)) as [S1 S2].
  set (k := ilog2_ratio n d) in *.
  unfold ge_pow2 in S1, S2.
  assert (Hk1 : - 54 < k).
  { destruct (Z.le_gt_cases k (- 54)) as [L|L]; [exfalso|lia].
    apply S2.
    replace (Z.max 0 (k + 1)) with 0 by lia.
    replace (Z.max 0 (- (k + 1))) with (53 + (- (k + 1) - 53)) by lia.
    rewrite Z.pow_add_r by lia.
    assert (0 < 2 ^ (- (k + 1) - 53)) by (apply Z.pow_pos_nonneg; lia).
    rewrite Z.pow_0_r. nia. }
  assert (Hk2 : k <= 52).
  { destruct (Z.le_gt_cases k 52) as [L|L]; [lia|exfalso].
    replace (Z.max 0 k) with (53 + (k - 53)) in S1 by lia.
    replace (Z.max 0 (- k)) with 0 in S1 by lia.
    rewrite Z.pow_add_r in S1 by lia.
    assert (0 < 2 ^ (k - 53)) by (apply Z.pow_pos_nonneg; lia).
    rewrite Z.pow_0_r in S1.
    assert (0 < 2 ^ 53) by (apply Z.pow_pos_nonneg; lia).
    nia. }
  unfold emin. replace (Z.max (k - 52) (-1074)) with (k - 52) by lia.
  set (s := 52 - k).
  replace (Z.max 0 (- (k - 52))) with s by lia.
  replace (Z.max 0 (k - 52)) with 0 by lia.
  rewrite Z.pow_0_r, Z.mul_1_r.
  unfold overflows.
  replace (971 <? k - 52) with false by (symmetry; apply Z.ltb_ge; lia).
  replace (k - 52 =? 971) with false by (symmetry; apply Z.eqb_neq; lia).
  replace (n <? 0) with false by (symmetry; apply Z.ltb_ge; lia).
  cbn [orb andb bind to_int].
  pose proof (near_after_round n d s ltac:(lia) ltac:(lia) ltac:(lia))
    as Hnear.
  assert (Hm : 0 <= rne (n * 2 ^ s) d).
  { apply rne_nonneg; [|lia].
    assert (0 < 2 ^ s) by (apply Z.pow_pos_nonneg; lia). nia. }
  destruct (0 <=? k - 52) eqn:E.
  - apply Z.leb_le in E. assert (Es : s = 0) by lia.
    replace (k - 52) with 0 by lia.
    rewrite Es in Hnear |- *.
    rewrite Z.pow_0_r, Z.div_1_r in Hnear. rewrite Z.pow_0_r, !Z.mul_1_r.
    rewrite Z.mul_1_r in Hnear.
    eexists. split; [reflexivity | exact Hnear].
  - replace (- (k - 52)) with s by lia.
    rewrite Z.quot_div_nonneg;
      [|exact Hm | apply Z.pow_pos_nonneg; lia].
    eexists. split; [reflexivity | exact Hnear].
Qed.

(** A quotient of at least [2^j], [52 <= j], is not brought below
    [2^j] by the rounding. *)
Lemma to_int_true_divide_large (n d j q : Z) :
  0 < d -> 52 <= j -> d * 2 ^ j <= n ->
  (x <- true_divide n d ;; to_int x) = Ok q -> 2 ^ j <= q.
Proof.
  intros Hd Hj Hn H.
  assert (Hpj : 0 < 2 ^ j) by (apply Z.pow_pos_nonneg; lia).
  assert (Hn0 : 0 < n) by nia.
  unfold true_divide, round_q in H.
  replace (d =? 0) with false in H by (symmetry; apply Z.eqb_neq; lia).
  replace (d <? 0) with false in H by (symmetry; apply Z.ltb_ge; lia).
  rewrite (Z.abs_eq d) in H by lia.
  replace (n =? 0) with false in H by (symmetry; apply Z.eqb_neq; lia).
  rewrite (Z.abs_eq n) in H by lia.
  unfold round_pos in H.
  destruct (ilog2_ratio_spec n d Hn0 Hd) as [S1 S2].
  set (k := ilog2_ratio n d) in *.
  assert (Hkj : j <= k).
  { destruct (Z.le_gt_cases j k) as [L|L]; [exact L|exfalso].
    apply S2. apply (ge_pow2_antitone n d (k + 1) j); try lia.
    unfold ge_pow2.
    replace (Z.max 0 j) with j by lia.
    replace (Z.max 0 (- j)) with 0 by lia.
    rewrite Z.pow_0_r. lia. }
  unfold ge_pow2 in S1.
  replace (Z.max 0 k) with (52 + (k - 52)) in S1 by lia.
  replace (Z.max 0 (- k)) with 0 in S1 by lia.
  rewrite Z.pow_add_r, Z.pow_0_r in S1 by lia.
  unfold emin in H.
  replace (Z.max (k - 52) (-1074)) with (k - 52) in H by lia.
  replace (Z.max 0 (- (k - 52))) with 0 in H by lia.
  replace (Z.max 0 (k - 52)) with (k - 52) in H by lia.
  rewrite Z.pow_0_r, Z.mul_1_r in H.
  assert (HE : 0 < 2 ^ (k - 52)) by (apply Z.pow_pos_nonneg; lia).
  set (E := 2 ^ (k - 52)) in *.
  pose proof (rne_bounds n (d * E) ltac:(nia)) as Hm.
  set (m := rne n (d * E)) in *.
  destruct (overflows (m, k - 52)); [discriminate|].
  replace (n <? 0) with false in H by (symmetry; apply Z.ltb_ge; lia).
  cbn [bind to_int] in H.
  replace (0 <=? k - 52) with true in H by (symmetry; apply Z.leb_le; lia).
  injection H as <-. fold E.
  assert (H52 : 0 < 2 ^ 52) by (apply Z.pow_pos_nonneg; lia).
  assert (Hm52 : 2 ^ 52 <= m).
  { set (T := 2 ^ 52) in *. clearbody m E T. 
    assert (0 < d * E) by nia.
    assert ((2 * T - 1) * (d * E) <= 2 * m * (d * E)) by nia.
    assert (2 * T - 1 <= 2 * m) by nia. lia. }
  assert (Hjk : 2 ^ j <= 2 ^ k) by (apply Z.pow_le_mono_r; lia).
  replace (2 ^ k) with (2 ^ 52 * E) in Hjk
    by (unfold E; rewrite <- Z.pow_add_r by lia; f_equal; lia).
  nia.
Qed.

End RoundingFacts.

Section SpreadFacts.
Import PyFloat.

Lemma round_pos_at (n d j : Z) :
  0 < n -> 0 < d -> - 1022 <= j ->
  ge_pow2 n d j -> ~ ge_pow2 n d (j + 1) ->
  round_pos n d =
    (rne (n * 2 ^ Z.max 0 (52 - j)) (d * 2 ^ Z.max 0 (j - 52)), j - 52).
Proof.
  intros Hn Hd Hj H1 H2. unfold round_pos.
  rewrite (ilog2_ratio_unique n d j Hn Hd H1 H2).
  unfold emin. replace (Z.max (j - 52) (-1074)) with (j - 52) by lia.
  now replace (- (j - 52)) with (52 - j) by lia.
Qed.

(** A ratio between 9/64 and 37/256 is reported as 14 percent. *)
Lemma spread_fourteen (x y : Z) :
  0 < y -> 9 * y <= 64 * x -> 256 * x <= 37 * y ->
  (s <- spread_of y (x + y) ;; round s) = Ok 14.
Proof.
  intros Hy Hlo Hhi. assert (Hx : 0 < x) by lia.
  unfold spread_of.
  replace (y =? 0) with false by (symmetry; apply Z.eqb_neq; lia).
  replace (x + y - y) with x by lia.
  unfold true_divide, round_q.
  replace (y =? 0) with false by (symmetry; apply Z.eqb_neq; lia).
  replace (y <? 0) with false by (symmetry; apply Z.ltb_ge; lia).
  replace (x =? 0) with false by (symmetry; apply Z.eqb_neq; lia).
  replace (x <? 0) with false by (symmetry; apply Z.ltb_ge; lia).
  rewrite (Z.abs_eq x), (Z.abs_eq y) by lia.
  rewrite (round_pos_at x y (- 3)); try lia; unfold ge_pow2;
    [ | cbn [Z.max Z.compare Z.opp Z.add Z.pos_sub Pos.pred_double];
        eval_pows; lia .. ].
  change (Z.max 0 (52 - - 3)) with 55. change (Z.max 0 (- 3 - 52)) with 0.
  change (- 3 - 52) with (- 55).
  rewrite Z.pow_0_r, Z.mul_1_r.
  assert (Hm1 : 9 * 2 ^ 49 <= rne (x * 2 ^ 55) y <= 37 * 2 ^ 47).
  { apply rne_bracket; trivial. eval_pows. lia. }
  set (m1 := rne (x * 2 ^ 55) y) in *.
  change (overflows (m1, - 55)) with false.
  cbn [bind mul hundred].
  unfold round_q.
  change (Z.max 0 (- 55 + 0)) with 0. change (Z.max 0 (- (- 55 + 0))) with 55.
  rewrite Z.pow_0_r, Z.mul_1_r.
  eval_pows.
  replace (m1 * 100 =? 0) with false by (symmetry; apply Z.eqb_neq; lia).
  replace (m1 * 100 <? 0) with false by (symmetry; apply Z.ltb_ge; lia).
  rewrite (Z.abs_eq (m1 * 100)) by lia.
  rewrite (round_pos_at (m1 * 100) 36028797018963968 3); try lia;
    unfold ge_pow2;
    [ | cbn [Z.max Z.compare Z.opp Z.add Z.pos_sub Pos.pred_double];
        eval_pows; lia .. ].
  change (Z.max 0 (52 - 3)) with 49. change (Z.max 0 (3 - 52)) with 0.
  change (3 - 52) with (- 49).
  rewrite Z.pow_0_r, Z.mul_1_r.
  assert (Hm2 : 225 * 2 ^ 45
                <= rne (m1 * 100 * 2 ^ 49) 36028797018963968
                <= 925 * 2 ^ 43).
  { apply rne_bracket; [lia|]. eval_pows. lia. }
  set (m2 := rne (m1 * 100 * 2 ^ 49) 36028797018963968) in *.
  change (overflows (m2, - 49)) with false.
  cbn [round bind]. change (0 <=? - 49) with false. cbv iota.
  change (- - 49) with 49.
  f_equal.
  pose proof (rne_bounds m2 (2 ^ 49) ltac:(eval_pows; lia)) as Hr.
  eval_pows. lia.
Qed.

End SpreadFacts.

(** * [estimate_tokens] *)

Lemma estimate_tokens_exact (b : Z) :
  0 <= b < 2 ^ 53 + 3 -> estimate_tokens b = Ok (b / 4, b / 3).
Proof.
  intros Hb.
  destruct (Z.lt_ge_cases b (2 ^ 53)) as [L|L].
  - unfold estimate_tokens.
    rewrite !to_int_true_divide by (eval_pows; lia).
    reflexivity.
  - assert (b = 2 ^ 53 \/ b = 2 ^ 53 + 1 \/ b = 2 ^ 53 + 2) as [E|[E|E]]
      by lia; subst b; vm_compute; reflexivity.
Qed.




(** * The summary line *)

Lemma summary_ok_small :
  forallb summary_ok (map Z.of_nat (seq 0 3000)) = true.
Proof. vm_compute. reflexivity. Qed.

Lemma average_floor (l h : Z) :
  0 <= l + h < 2 ^ 53 -> average l h = Ok ((l + h) / 2).
Proof.
  intros H. unfold average. apply to_int_true_divide; eval_pows; lia.
Qed.

Lemma average_floor_wide (l h : Z) :
  0 <= l + h < 2 ^ 53 + 3 -> average l h = Ok ((l + h) / 2).
Proof.
  intros H. destruct (Z.lt_ge_cases (l + h) (2 ^ 53)) as [L|L].
  - apply average_floor. lia.
  - unfold average.
    assert (l + h = 2 ^ 53 \/ l + h = 2 ^ 53 + 1 \/ l + h = 2 ^ 53 + 2)
      as [E|[E|E]] by lia; rewrite E; vm_compute; reflexivity.
Qed.

Lemma summary_of_floors (b : Z) :
  0 <= b < 2 ^ 53 + 3 ->
  exists pct,
    summary (b / 4) (b / 3) = Ok ((b / 4 + b / 3) / 2, pct)
    /\ ((b / 4 + b / 3) / 2 = 0 -> pct = 0)
    /\ ((b / 4 + b / 3) / 2 <> 0 ->
        nearest_int pct (100 * (b / 3 - (b / 4 + b / 3) / 2))
                    ((b / 4 + b / 3) / 2)).
Proof.
  intros Hb.
  destruct (Z.lt_ge_cases b 3000) as [Hs|Hs].
  - (* small byte counts: by evaluation *)
    pose proof summary_ok_small as F. rewrite forallb_forall in F.
    specialize (F b).
    assert (Hin : In b (map Z.of_nat (seq 0 3000))).
    { apply in_map_iff. exists (Z.to_nat b). split; [lia|].
      apply in_seq. lia. }
    specialize (F Hin). unfold summary_ok in F.
    destruct (summary (b / 4) (b / 3)) as [[avg pct]|]; [|discriminate].
    apply andb_prop in F. destruct F as [F1 F2].
    apply Z.eqb_eq in F1. subst avg.
    exists pct. split; [reflexivity|]. split; intros E.
    + rewrite E in F2. change (0 =? 0) with true in F2. cbv iota in F2.
      now apply Z.eqb_eq in F2.
    + apply Z.eqb_neq in E. rewrite E in F2. apply Z.leb_le in F2.
      unfold nearest_int. exact F2.
  - (* from 3000 bytes on the ratio is close to 1/7 *)
    pose proof (Z.div_mod b 4 ltac:(lia)).
    pose proof (Z.mod_pos_bound b 4 ltac:(lia)).
    pose proof (Z.div_mod b 3 ltac:(lia)).
    pose proof (Z.mod_pos_bound b 3 ltac:(lia)).
    set (l := b / 4) in *. set (h := b / 3) in *.
    pose proof (Z.div_mod (l + h) 2 ltac:(lia)).
    pose proof (Z.mod_pos_bound (l + h) 2 ltac:(lia)).
    exists 14. unfold summary.
    rewrite average_floor by (eval_pows; lia).
    set (avg := (l + h) / 2) in *.
    cbn [bind].
    pose proof (spread_fourteen (h - avg) avg) as S.
    replace (h - avg + avg) with h in S by lia.
    assert (S' : (s <- spread_of avg h;; PyFloat.round s) = Ok 14)
      by (apply S; eval_pows; lia).
    destruct (spread_of avg h) as [s|]; [|discriminate].
    cbn [bind] in *. rewrite S'. cbn [bind].
    split; [reflexivity|]. split; [lia|].
    intros _. unfold nearest_int. eval_pows. lia.
Qed.

(** C6 (as the code behaves).  For every total token estimate
    [(low, high)] with [low + high < 2^53 + 3], the summary line
    reports the average [floor((low + high) / 2)], and a percentage
    that is 0 when the average is 0 and otherwise an integer nearest to
    [(high - average) / average * 100].  The bound is on the sum that
    is halved in floating point, not on the byte count: byte counts
    beyond [2^53], whose estimates are themselves rounded, are
    covered. *)
Theorem summary_of_estimate (b low high : Z) :
  0 <= b ->
  estimate_tokens b = Ok (low, high) ->
  low + high < 2 ^ 53 + 3 ->
  exists pct,
    summary low high = Ok ((low + high) / 2, pct)
    /\ ((low + high) / 2 = 0 -> pct = 0)
    /\ ((low + high) / 2 <> 0 ->
        nearest_int pct (100 * (high - (low + high) / 2))
                    ((low + high) / 2)).
Proof.
  intros Hb He Hsum.
  destruct (Z.lt_ge_cases b (2 ^ 53 + 3)) as [Hs|Hl].
  { rewrite (estimate_tokens_exact b (conj Hb Hs)) in He.
    injection He as <- <-. now apply summary_of_floors. }
  unfold estimate_tokens in He.
  apply bind_ok_inv in He as [l [El He]].
  apply bind_ok_inv in He as [h [Eh He]].
  injection He as <- <-.
  (* the byte count is below 3 * 2^53 *)
  assert (Hb3 : b < 3 * 2 ^ 53).
  { destruct (Z.lt_ge_cases b (3 * 2 ^ 53)) as [L|L]; [exact L|exfalso].
    pose proof (to_int_true_divide_large b 3 53 h ltac:(lia) ltac:(lia)
                  ltac:(lia) Eh) as Hh.
    pose proof (to_int_true_divide_large b 4 52 l ltac:(lia) ltac:(lia)
                  ltac:(eval_pows; lia) El) as Hl'.
    eval_pows. lia. }
  destruct (to_int_true_divide_near b 4 ltac:(eval_pows; lia)
              ltac:(eval_pows; lia)) as [l' [El' [L1 L2]]].
  rewrite El in El'. injection El' as <-.
  destruct (to_int_true_divide_near b 3 ltac:(eval_pows; lia)
              ltac:(eval_pows; lia)) as [h' [Eh' [H1 H2]]].
  rewrite Eh in Eh'. injection Eh' as <-.
  pose proof (Z.div_mod (l + h) 2 ltac:(lia)).
  pose proof (Z.mod_pos_bound (l + h) 2 ltac:(lia)).
  exists 14. unfold summary.
  rewrite average_floor_wide by (eval_pows; lia).
  set (avg := (l + h) / 2) in *.
  cbn [bind].
  pose proof (spread_fourteen (h - avg) avg) as S.
  replace (h - avg + avg) with h in S by lia.
  assert (S' : (s <- spread_of avg h;; PyFloat.round s) = Ok 14)
    by (apply S; eval_pows; lia).
  destruct (spread_of avg h) as [s|]; [|discriminate].
  cbn [bind] in *. rewrite S'. cbn [bind].
  split; [reflexivity|]. split; [eval_pows; lia|].
  intros _. unfold nearest_int. eval_pows. lia.
Qed.

Lemma summary_of_estimate_witness :
  exists pct,
    summary 2500000000000000 3333333333333333
    = Ok ((2500000000000000 + 3333333333333333) / 2, pct)
    /\ ((2500000000000000 + 3333333333333333) / 2 = 0 -> pct = 0)
    /\ ((2500000000000000 + 3333333333333333) / 2 <> 0 ->
        nearest_int pct
          (100 * (3333333333333333
                  - (2500000000000000 + 3333333333333333) / 2))
          ((2500000000000000 + 3333333333333333) / 2)).
Proof.
  apply (summary_of_estimate 10000000000000000
           2500000000000000 3333333333333333).
  - vm_compute. discriminate.
  - vm_compute. reflexivity.
  - vm_compute. reflexivity.
Defined.

(** C6 as stated fails: the estimate of 15440913008127419 bytes has
    [low + high = 2^53 + 3], and the reported average is one more than
    [floor((low + high) / 2)]. *)
Lemma summary_average_not_floor :
  estimate_tokens 15440913008127419
    = Ok (3860228252031855, 5146971002709140)
  /\ summary 3860228252031855 5146971002709140
     = Ok (4503599627370498, 14)
  /\ (3860228252031855 + 5146971002709140) / 2 = 4503599627370497.
Proof.
  repeat split; vm_compute; reflexivity.
Qed.

(** * Sorting and the largest files *)

Section SortedDesc.
Context {A : Type} (key : A -> Z).

Let desc (a b : A) : Prop := key b <= key a.

Lemma insert_desc_perm (x : A) (l : list A) :
  Permutation (insert_desc key x l) (x :: l).
Proof.
  induction l as [|y l IH]; cbn; [reflexivity|].
  destruct (key x <? key y); [|reflexivity].
  rewrite IH. apply perm_swap.
Qed.

Lemma sorted_desc_perm (l : list A) : Permutation (sorted_desc key l) l.
Proof.
  induction l as [|x l IH]; cbn; [reflexivity|].
  rewrite insert_desc_perm. now constructor.
Qed.

Lemma insert_desc_sorted (x : A) (l : list A) :
  StronglySorted desc l -> StronglySorted desc (insert_desc key x l).
Proof.
  induction 1 as [|y l Hs IH Hy]; cbn.
  - repeat constructor.
  - destruct (key x <? key y) eqn:E.
    + apply Z.ltb_lt in E. constructor; trivial.
      rewrite Forall_forall in *. intros z Hz.
      apply (Permutation_in _ (insert_desc_perm x l)) in Hz.
      destruct Hz as [<-|Hz]; [unfold desc; lia | now apply Hy].
    + apply Z.ltb_ge in E. constructor; [now constructor|].
      constructor; [exact E|].
      rewrite Forall_forall in *. intros z Hz.
      specialize (Hy z Hz). unfold desc in *. lia.
Qed.

Lemma sorted_desc_sorted (l : list A) :
  StronglySorted desc (sorted_desc key l).
Proof.
  induction l as [|x l IH]; cbn; [constructor|].
  now apply insert_desc_sorted.
Qed.

Lemma sorted_app_cross (l1 l2 : list A) :
  StronglySorted desc (l1 ++ l2) ->
  forall a b, In a l1 -> In b l2 -> desc a b.
Proof.
  induction l1 as [|x l1 IH]; cbn; intros Hs a b Ha Hb; [contradiction|].
  inversion Hs as [|? ? Hs' Hx]; subst.
  destruct Ha as [<-|Ha].
  - rewrite Forall_forall in Hx. apply Hx, in_or_app. now right.
  - now apply IH.
Qed.

Lemma sorted_app_left (l1 l2 : list A) :
  StronglySorted desc (l1 ++ l2) -> StronglySorted desc l1.
Proof.
  induction l1 as [|x l1 IH]; cbn; intros Hs; [constructor|].
  inversion Hs as [|? ? Hs' Hx]; subst. constructor; [now apply IH|].
  rewrite Forall_forall in *. intros z Hz. apply Hx, in_or_app. now left.
Qed.

End SortedDesc.

(** C5.  The selection of the largest files has length
    [min(N, total_files)], and is empty for [N <= 0]; it is sorted by
    descending size; and every size in it is at least every size of a
    record left out. *)
Theorem top_n_largest (top : Z) (stats : list FileStat) :
  Z.of_nat (List.length (top_n top stats))
    = (if top <=? 0 then 0 else Z.min top (Z.of_nat (List.length stats)))
  /\ StronglySorted (fun a b => size b <= size a) (top_n top stats)
  /\ exists rest,
       Permutation stats (top_n top stats ++ rest)
       /\ forall a b, In a (top_n top stats) -> In b rest -> size b <= size a.
Proof.
  unfold top_n.
  set (k := Z.to_nat (Z.max top 0)).
  set (l := sorted_desc size stats).
  pose proof (sorted_desc_sorted size stats) as Hs. fold l in Hs.
  pose proof (sorted_desc_perm size stats) as Hp. fold l in Hp.
  rewrite <- (firstn_skipn k l) in Hs.
  split; [|split].
  - rewrite length_firstn, (Permutation_length Hp).
    destruct (top <=? 0) eqn:E.
    + apply Z.leb_le in E. subst k. lia.
    + apply Z.leb_gt in E. subst k. lia.
  - eapply sorted_app_left. exact Hs.
  - exists (skipn k l). split.
    + rewrite firstn_skipn. now symmetry.
    + intros a b Ha Hb.
      exact (sorted_app_cross size _ _ Hs a b Ha Hb).
Qed.

Local Open Scope string_scope.

(** * The filter stage *)

Lemma classify_pipeline (w : World) (cfg : Config) (p : Path) :
  classify w cfg p = run_checks pipeline w cfg p [].
Proof.
  unfold classify, pipeline, run_checks, c_hidden, c_lockfile, c_exclude,
    c_extension, c_binary, c_size, fail_if, ext_of; cbn [c_run c_io c_stage].
  destruct (negb (include_hidden cfg) && is_hidden (rel_of (root cfg) p));
    [reflexivity|].
  destruct (mem_string (name p) SKIP_FILENAMES); [reflexivity|].
  destruct (excluded w cfg p); [reflexivity|].
  destruct (match exts cfg with [] => false | _ => _ end); [reflexivity|].
  cbn [app].
  destruct (String.eqb (binary_policy cfg) "skip" && is_probably_binary w p)%bool;
    [reflexivity|].
  destruct (os_stat w p) as [sz|[]]; try reflexivity.
  destruct (sz <=? 0)%Z; reflexivity.
Qed.

Section StringFacts.

Lemma str_lower_startswith_dot (w : World) (s : string) :
  startswith_dot s = true -> startswith_dot (str_lower w s) = true.
Proof.
  destruct s as [|c s]; cbn; [discriminate|].
  intros H. apply Ascii.eqb_eq in H. subst c.
  rewrite str_lower_dot. reflexivity.
Qed.

Lemma str_lower_empty (w : World) : str_lower w "" = "".
Proof. rewrite str_lower_ascii by reflexivity. reflexivity. Qed.





End StringFacts.

(** * Records emitted by the filter stage *)

Lemma classify_emitted (w : World) (cfg : Config) (p : Path) (r : FileStat) :
  fst (classify w cfg p) = Emitted r ->
  path r = p /\ os_stat w p = Ok (size r) /\ 0 < size r
  /\ ext r = ext_of w p.
Proof.
  rewrite classify_pipeline.
  unfold pipeline, run_checks, c_hidden, c_lockfile, c_exclude,
    c_extension, c_binary, c_size, fail_if; cbn [c_run c_io c_stage].
  destruct (negb (include_hidden cfg) && is_hidden (rel_of (root cfg) p));
    [discriminate|].
  destruct (mem_string (name p) SKIP_FILENAMES); [discriminate|].
  destruct (excluded w cfg p); [discriminate|].
  destruct (match exts cfg with [] => false | _ => _ end); [discriminate|].
  destruct (String.eqb (binary_policy cfg) "skip" && is_probably_binary w p)%bool;
    [discriminate|].
  destruct (os_stat w p) as [sz|[]]; try discriminate.
  destruct (sz <=? 0)%Z eqn:E; [discriminate|].
  cbn. intros H. injection H as <-. cbn. apply Z.leb_gt in E. auto.
Qed.

Lemma iter_filestats_In (w : World) (cfg : Config) (paths : list Path)
  (r : FileStat) :
  In r (fst (iter_filestats w cfg paths)) ->
  exists p, In p paths /\ fst (classify w cfg p) = Emitted r.
Proof.
  induction paths as [|p ps IH]; cbn; [contradiction|].
  destruct (fst (classify w cfg p)) as [s|r'|e] eqn:E.
  - intros H. destruct (IH H) as [q [Hq Hc]]. exists q. auto.
  - destruct (iter_filestats w cfg ps) as [rs e]. cbn in *.
    intros [<-|H].
    + exists p. auto.
    + destruct (IH H) as [q [Hq Hc]]. exists q. auto.
  - cbn. contradiction.
Qed.



(** The extension of a record is lower-cased by [str.lower], letters
    outside ASCII included, as are the values of [--ext]: the file
    [notes.ET], the E with an acute accent, is counted under the
    extension with the small letters, with or without [--ext]. *)
Example accented_extension_lowered :
  let p := mkPath true ["repo"; "notes" ++ ext_accent_upper] in
  let args := mkArgs repo true (Some [ext_accent_upper]) false false []
                     "skip" 10 in
  fst (iter_filestats w_accent (mkConfig [] repo false "skip" []) [p])
  = [mkFileStat p 30 ext_accent_lower]
  /\ select_exts w_accent args = [ext_accent_lower]
  /\ fst (iter_filestats w_accent (config_of w_accent args repo)
            (walk_all_files w_accent repo))
     = [mkFileStat p 30 ext_accent_lower]
  /\ ext_accent_lower <> ext_accent_upper.
Proof. repeat split; try reflexivity. discriminate. Qed.

Section ExclusionFacts.

Lemma has_char_In (ch : ascii) (s : string) :
  has_char ch s = true <-> In ch (list_ascii_of_string s).
Proof.
  induction s as [|c s IH]; cbn; [split; [discriminate | contradiction]|].
  rewrite orb_true_iff, IH, Ascii.eqb_eq. tauto.
Qed.

Lemma has_wildcard_spec (pat : string) :
  has_wildcard pat = true <-> contains_wildcard pat.
Proof.
  unfold has_wildcard, contains_wildcard, wildcard_chars.
  rewrite existsb_exists. split; intros [ch [H1 H2]]; exists ch;
    (split; [exact H1|]); now apply has_char_In.
Qed.

Lemma prefix_spec (p s : string) :
  String.prefix p s = true <-> exists post, s = p ++ post.
Proof.
  revert s. induction p as [|a p IH]; intros s.
  - split; [intros _; now exists s | intros _; now destruct s].
  - destruct s as [|b s].
    + split; [discriminate|]. intros [post H]. discriminate.
    + change (String.prefix (String a p) (String b s))
        with (if ascii_dec a b then String.prefix p s else false).
      destruct (ascii_dec a b) as [<-|N].
      * rewrite IH. split; intros [post H]; exists post.
        -- cbn. now rewrite H.
        -- now injection H.
      * split; [discriminate|]. intros [post H]. injection H as E _.
        now contradiction N.
Qed.

Lemma is_substring_spec (pat s : string) :
  is_substring pat s = true <-> occurs_in pat s.
Proof.
  unfold occurs_in. induction s as [|c s IH]; cbn [is_substring].
  - rewrite orb_false_r, prefix_spec. split.
    + intros [post H]. now exists "", post.
    + intros [[|a pre] [post H]]; [now exists post | discriminate].
  - rewrite orb_true_iff, prefix_spec, IH. split.
    + intros [[post H]|[pre [post H]]].
      * now exists "", post.
      * exists (String c pre), post. cbn. now rewrite H.
    + intros [[|a pre] [post H]].
      * left. now exists post.
      * right. injection H as _ H. now exists pre, post.
Qed.

Lemma exclude_loop_spec (w : World) (pats : list string)
  (nm rel : string) :
  exclude_loop w pats nm rel = true
  <-> exists pat, In pat pats /\ pattern_matches w pat nm rel.
Proof.
  induction pats as [|pat rest IH]; cbn [exclude_loop].
  - split; [discriminate|]. intros [pat [[] _]].
  - assert (Here :
      (if has_wildcard pat
       then fnmatch w rel pat || fnmatch w nm pat
       else is_substring pat nm || is_substring pat rel) = true
      <-> pattern_matches w pat nm rel).
    { unfold pattern_matches.
      destruct (has_wildcard pat) eqn:W.
      - apply has_wildcard_spec in W. rewrite orb_true_iff. tauto.
      - assert (~ contains_wildcard pat) as N
          by (rewrite <- has_wildcard_spec, W; discriminate).
        rewrite orb_true_iff, !is_substring_spec. tauto. }
    destruct (has_wildcard pat).
    + destruct (fnmatch w rel pat || fnmatch w nm pat) eqn:M.
      * split; [|reflexivity]. intros _. exists pat. split; [now left|].
        now apply Here.
      * rewrite IH. split; intros [q [Hq Hm]].
        -- exists q. split; [now right | exact Hm].
        -- destruct Hq as [<-|Hq]; [|now exists q].
           apply Here in Hm. discriminate.
    + destruct (is_substring pat nm || is_substring pat rel) eqn:M.
      * split; [|reflexivity]. intros _. exists pat. split; [now left|].
        now apply Here.
      * rewrite IH. split; intros [q [Hq Hm]].
        -- exists q. split; [now right | exact Hm].
        -- destruct Hq as [<-|Hq]; [|now exists q].
           apply Here in Hm. discriminate.
Qed.

End ExclusionFacts.

Lemma strip_prefix_app (l r : list string) :
  strip_prefix l (l ++ r) = Some r.
Proof.
  induction l as [|x l IH]; cbn; [reflexivity|].
  now rewrite String.eqb_refl.
Qed.

Lemma relative_to_under (r : Path) (rest : list string) :
  relative_to (mkPath (absolute r) (segments r ++ rest)) r
  = Some (mkPath false rest).
Proof.
  unfold relative_to. cbn [absolute segments].
  now rewrite Bool.eqb_reflx, strip_prefix_app.
Qed.





(** With the default extensions, [--exclude '*.md'] removes a
    Markdown file and [--exclude tempfile] removes a path that has
    [tempfile] in a directory name; without them both are counted. *)
Example exclude_glob_and_substring :
  let w := world_of (plain_dir []) in
  let docs := mkPath true ["repo"; "docs"; "guide.md"] in
  let tmp := mkPath true ["repo"; "tempfiles"; "a.py"] in
  excluded w (mkConfig DEFAULT_EXTS repo false "skip" ["*.md"]) docs = true
  /\ excluded w (mkConfig DEFAULT_EXTS repo false "skip" ["tempfile"]) tmp
     = true
  /\ excluded w (mkConfig DEFAULT_EXTS repo false "skip" ["*.md"]) tmp
     = false
  /\ excluded w (mkConfig DEFAULT_EXTS repo false "skip" []) docs = false.
Proof. repeat split; reflexivity. Qed.

(** The patterns see the path from the root on: below the root
    [/repo], the pattern [src/*] excludes [/repo/src/a.py], while
    [repo] and [/repo/*], which match the absolute path only, exclude
    nothing. *)
Example exclusion_is_root_relative :
  let w := world_of (plain_dir []) in
  let a := mkPath true ["repo"; "src"; "a.py"] in
  excluded w (mkConfig DEFAULT_EXTS repo false "skip" ["src/*"]) a = true
  /\ excluded w (mkConfig DEFAULT_EXTS repo false "skip" ["repo"]) a = false
  /\ excluded w (mkConfig DEFAULT_EXTS repo false "skip" ["/repo/*"]) a
     = false.
Proof. repeat split; reflexivity. Qed.


(** * Lockfiles *)

Lemma mem_string_In (x : string) (l : list string) :
  mem_string x l = true <-> In x l.
Proof.
  unfold mem_string. rewrite existsb_exists. split.
  - intros [y [Hy E]]. apply String.eqb_eq in E. now subst.
  - intros H. exists x. split; [exact H | apply String.eqb_refl].
Qed.

Lemma classify_lockfile (w : World) (cfg : Config) (p : Path) :
  In (name p) SKIP_FILENAMES ->
  classify w cfg p = (Rejected SHidden, [])
  \/ classify w cfg p = (Rejected SLockfile, []).
Proof.
  intros H. apply mem_string_In in H. unfold classify.
  destruct (negb (include_hidden cfg) && is_hidden (rel_of (root cfg) p));
    [now left|].
  rewrite H. now right.
Qed.

Lemma report_empty (w : World) (root_ : Path) (top : Z) :
  report w root_ top []
  = if stdout_encodes w (as_posix root_)
    then (empty_report root_, Ok tt)
    else ([], Raise UnicodeEncodeError).
Proof.
  unfold report, top_n. cbn [sorted_desc fold_right firstn].
  rewrite firstn_nil.
  change (estimate_tokens (sum_sizes [])) with (@Ok (Z * Z) (0, 0)%Z).
  cbn [lift io_bind print]. unfold print_line at 1.
  cbn [line_texts forallb]. rewrite andb_true_r.
  destruct (stdout_encodes w (as_posix root_)); reflexivity.
Qed.

(** C7.  A run whose only candidate is a file named [yarn.lock]
    counts no file, whatever the extension filter, the binary policy,
    the size and the content of the file; when the root can be
    printed, the run prints [Files counted: 0] and exits with code 0. *)
Theorem yarn_lock_excluded (w : World) (args : Args) (root_ p : Path) :
  name p = "yarn.lock" ->
  resolve_path w (a_path args) = Ok root_ ->
  fst (discover w args root_) = [p] ->
  total_files w args = Some 0
  /\ (stdout_encodes w (as_posix root_) = true ->
      In (LFilesCounted 0) (stdout (main w args))
      /\ exit_code (main w args) = 0).
Proof.
  intros Hn Hr Hd.
  assert (Hc : exists s,
            fst (classify w (config_of w args root_) p) = Rejected s).
  { destruct (classify_lockfile w (config_of w args root_) p) as [E|E].
    - rewrite Hn. cbn. tauto.
    - rewrite E. now exists SHidden.
    - rewrite E. now exists SLockfile. }
  destruct Hc as [s Hc].
  unfold total_files, main. rewrite Hr.
  destruct (discover w args root_) as [ps ws].
  cbn in Hd. subst ps. cbn [iter_filestats fst]. rewrite Hc.
  split; [reflexivity|]. intros He.
  rewrite report_empty, He. cbn. tauto.
Qed.

Lemma yarn_lock_excluded_witness :
  total_files w_yarn (default_args repo) = Some 0
  /\ In (LFilesCounted 0) (stdout (main w_yarn (default_args repo)))
  /\ exit_code (main w_yarn (default_args repo)) = 0.
Proof.
  destruct (yarn_lock_excluded w_yarn (default_args repo) repo
              (mkPath true ["repo"; "yarn.lock"]))
    as [H1 H2]; [reflexivity | reflexivity | reflexivity |].
  split; [exact H1 | apply H2; reflexivity].
Defined.

Lemma run_checks_stage (cs : list check) (w : World) (cfg : Config)
  (p : Path) (io : list io_event) (s : stage) :
  fst (run_checks cs w cfg p io) = Rejected s ->
  exists c, In c cs /\ c_stage c = s.
Proof.
  revert io. induction cs as [|c cs IH]; intros io; cbn [run_checks].
  - cbn. destruct (os_stat w p); discriminate.
  - destruct (c_run c w cfg p).
    + intros H. destruct (IH _ H) as [c' [Hin E]]. exists c'. split;
        [now right | exact E].
    + cbn. intros H. injection H as <-. exists c. split; [now left | reflexivity].
    + cbn. discriminate.
Qed.

(** C10.  The lockfile check compares file names exactly: a path whose
    name is not, letter for letter, an entry of [SKIP_FILENAMES] (as
    [Yarn.lock], which differs from [yarn.lock] in case only) is not
    rejected by that check, and its fate is that of the remaining
    checks. *)
Theorem lockfile_match_case_sensitive (w : World) (cfg : Config) (p : Path) :
  ~ In (name p) SKIP_FILENAMES ->
  fst (classify w cfg p) <> Rejected SLockfile
  /\ classify w cfg p
     = run_checks [c_hidden; c_exclude; c_extension; c_binary; c_size]
                  w cfg p [].
Proof.
  intros H.
  assert (E : classify w cfg p
              = run_checks [c_hidden; c_exclude; c_extension; c_binary; c_size]
                           w cfg p []).
  { rewrite classify_pipeline. unfold pipeline.
    cbn [run_checks c_run c_io c_stage c_hidden c_lockfile app].
    destruct (mem_string (name p) SKIP_FILENAMES) eqn:M.
    - apply mem_string_In in M. contradiction.
    - reflexivity. }
  split; [|exact E].
  rewrite E. intros R. apply run_checks_stage in R.
  destruct R as [c [Hin Hs]]. cbn in Hin.
  repeat (destruct Hin as [<-|Hin]; [discriminate|]). contradiction.
Qed.

Lemma lockfile_match_case_sensitive_witness :
  lower "Yarn.lock" = lower "yarn.lock"
  /\ fst (classify w_case (cfg_of_policy "skip")
            (mkPath true ["repo"; "Yarn.lock"])) <> Rejected SLockfile
  /\ classify w_case (cfg_of_policy "skip") (mkPath true ["repo"; "Yarn.lock"])
     = run_checks [c_hidden; c_exclude; c_extension; c_binary; c_size]
         w_case (cfg_of_policy "skip") (mkPath true ["repo"; "Yarn.lock"]) [].
Proof.
  split; [reflexivity|].
  apply (lockfile_match_case_sensitive w_case (cfg_of_policy "skip")
           (mkPath true ["repo"; "Yarn.lock"])).
  cbn. intros H.
  repeat (destruct H as [H|H]; [discriminate|]). contradiction.
Defined.

(** Without an extension filter the file is counted. *)
Example yarn_lock_capitalised_counted :
  fst (iter_filestats w_case (mkConfig [] repo false "skip" [])
         [mkPath true ["repo"; "Yarn.lock"]])
  = [mkFileStat (mkPath true ["repo"; "Yarn.lock"]) 120 ".lock"].
Proof. reflexivity. Qed.

(** * A root that is not a directory *)





(** A root written with [..] names the directory it resolves to: from
    the working directory [/repo/src] the root [..] is [/repo], as is
    [/nonexistent/../repo], and the files of [/repo] are counted. *)
Example root_with_dotdot_is_resolved :
  let w := ascii_world (fs w_case) ["repo"; "src"] None in
  resolve_path w (mkPath false [".."]) = Ok repo
  /\ resolve_path w (mkPath true ["nonexistent"; ".."; "repo"]) = Ok repo
  /\ is_directory w repo = true
  /\ total_files w (default_args (mkPath false [".."])) = Some 1
  /\ total_files w (default_args (mkPath true ["nonexistent"; ".."; "repo"]))
     = Some 1.
Proof. repeat split; reflexivity. Qed.

(** * Files that cannot be examined *)

Lemma unreadable_is_binary (w : World) (p : Path) (e : exn) :
  open_read w p 4096 = Raise e -> is_probably_binary w p = true.
Proof. unfold is_probably_binary. now intros ->. Qed.

(** Under the policy [skip] a file that cannot be opened never reaches
    [stat] and is never emitted. *)
Lemma unreadable_rejected_under_skip (w : World) (cfg : Config) (p : Path)
  (e : exn) :
  binary_policy cfg = "skip" ->
  open_read w p 4096 = Raise e ->
  exists s, fst (classify w cfg p) = Rejected s
            /\ ~ In (EvStat p) (snd (classify w cfg p)).
Proof.
  intros Hp Ho. unfold classify.
  destruct (negb (include_hidden cfg) && is_hidden (rel_of (root cfg) p));
    [exists SHidden; cbn; tauto|].
  destruct (mem_string (name p) SKIP_FILENAMES);
    [exists SLockfile; cbn; tauto|].
  destruct (excluded w cfg p); [exists SExclude; cbn; tauto|].
  destruct (match exts cfg with [] => false | _ => _ end);
    [exists SExtension; cbn; tauto|].
  rewrite Hp, (unreadable_is_binary _ _ _ Ho). cbn.
  exists SBinary. split; [reflexivity|]. intros [H|[]]. discriminate.
Qed.

(** A file that is missing when [stat] is called is dropped, under
    every binary policy. *)
Lemma missing_file_dropped (w : World) (cfg : Config) (p : Path) :
  os_stat w p = Raise FileNotFoundError ->
  exists s, fst (classify w cfg p) = Rejected s.
Proof.
  intros Hs. unfold classify.
  destruct (negb (include_hidden cfg) && is_hidden (rel_of (root cfg) p));
    [now exists SHidden|].
  destruct (mem_string (name p) SKIP_FILENAMES); [now exists SLockfile|].
  destruct (excluded w cfg p); [now exists SExclude|].
  destruct (match exts cfg with [] => false | _ => _ end);
    [now exists SExtension|].
  destruct (String.eqb (binary_policy cfg) "skip" && is_probably_binary w p)%bool;
    [now exists SBinary|].
  rewrite Hs. now exists SSize.
Qed.

(** C3.  The claim that a file whose [stat] fails is dropped silently
    under every binary policy does not hold of the code: only
    [FileNotFoundError] is caught.  With [--binary include], a tracked
    file [a/b.py] whose directory [a] has become a regular file makes
    [stat] raise [NotADirectoryError], and a file of a directory that
    can be listed but not traversed makes it raise [PermissionError];
    either ends the run with a traceback and no report.  Under the
    policy [skip] the same files are set aside by the sniff and the run
    succeeds. *)
Theorem stat_error_not_caught :
  (fst (discover w_stale args_tracked_include repo) = [stale_file]
   /\ os_stat w_stale stale_file = Raise NotADirectoryError
   /\ iter_filestats w_stale (cfg_of_policy "include") [stale_file]
      = ([], Some NotADirectoryError)
   /\ main w_stale args_tracked_include
      = mkOutcome 1 [] [ETraceback NotADirectoryError]
   /\ main w_stale (default_args repo) = mkOutcome 0 (empty_report repo) [])
  /\ (fst (discover w_locked args_include repo) = [locked_file]
      /\ os_stat w_locked locked_file = Raise PermissionError
      /\ main w_locked args_include
         = mkOutcome 1 [] [ETraceback PermissionError]
      /\ main w_locked args_all_skip = mkOutcome 0 (empty_report repo) []).
Proof.
  repeat split; reflexivity.
Qed.

(** * The order of the checks *)

(** The code follows the pipeline of the specification on every path
    whose [stat] succeeds or reports a missing file. *)
Lemma classify_spec_pipeline (w : World) (cfg : Config) (p : Path) :
  (forall e, os_stat w p = Raise e -> e = FileNotFoundError) ->
  classify w cfg p = run_checks spec_pipeline w cfg p [].
Proof.
  intros H. rewrite classify_pipeline. unfold pipeline, spec_pipeline.
  cbn [run_checks c_run c_io c_stage c_hidden c_lockfile c_exclude
       c_extension c_binary c_size c_size_spec].
  destruct (os_stat w p) as [sz|e]; [reflexivity|].
  rewrite (H e eq_refl). reflexivity.
Qed.

(** C4.  The six checks run in the order of the specification
    ([classify_pipeline]), but the sixth does not reject every file that
    cannot be examined: on the paths below, which pass the first five
    checks, the code raises the error of [stat] where the pipeline of
    the specification rejects at the size check. *)
Theorem size_check_raises :
  (classify w_stale (cfg_of_policy "include") stale_file
   = (Raised NotADirectoryError, [EvStat stale_file])
   /\ run_checks spec_pipeline w_stale (cfg_of_policy "include")
        stale_file []
      = (Rejected SSize, [EvStat stale_file]))
  /\ (classify w_locked (cfg_of_policy "include") locked_file
      = (Raised PermissionError, [EvStat locked_file])
      /\ run_checks spec_pipeline w_locked (cfg_of_policy "include")
           locked_file []
         = (Rejected SSize, [EvStat locked_file])).
Proof.
  repeat split; reflexivity.
Qed.

(** The checks before [stat] leave no trace on the file system, the
    sniff comes before [stat], and each happens at most once. *)
Lemma classify_io_order (w : World) (cfg : Config) (p : Path) :
  snd (classify w cfg p) = []
  \/ snd (classify w cfg p) = [EvOpen p]
  \/ snd (classify w cfg p) = [EvStat p]
  \/ snd (classify w cfg p) = [EvOpen p; EvStat p].
Proof.
  unfold classify.
  destruct (negb (include_hidden cfg) && is_hidden (rel_of (root cfg) p));
    [cbn; tauto|].
  destruct (mem_string (name p) SKIP_FILENAMES); [cbn; tauto|].
  destruct (excluded w cfg p); [cbn; tauto|].
  destruct (match exts cfg with [] => false | _ => _ end); [cbn; tauto|].
  destruct (String.eqb (binary_policy cfg) "skip");
    destruct (is_probably_binary w p); cbn [andb];
    try (cbn; tauto);
    destruct (os_stat w p) as [sz|[]]; try (cbn; tauto);
    destruct (sz <=? 0)%Z; cbn; tauto.
Qed.

(** * Part IV: further properties of the program *)

(** * [fmt_int] *)

Section FmtIntFacts.

Local Open Scope nat_scope.

Lemma string_list_ascii (s : string) :
  string_of_list_ascii (list_ascii_of_string s) = s.
Proof. apply string_of_list_ascii_of_string. Qed.

Lemma group3_rev_facts (n : nat) (l : list ascii) :
  List.length l <= n ->
  Forall (fun c => c <> ","%char) l ->
  filter (fun c => negb (Ascii.eqb c ",")) (group3_rev l) = l
  /\ List.length (group3_rev l) = List.length l + (List.length l - 1) / 3.
Proof.
  revert l. induction n as [|n IH]; intros l Hn Hl.
  - destruct l; [split; reflexivity | cbn in Hn; lia].
  - destruct l as [|a [|b [|c [|d rest]]]].
    1-4: split; [|reflexivity]; cbn [group3_rev filter];
      repeat match goal with
             | H : Forall _ (_ :: _) |- _ =>
                 apply Forall_cons_iff in H as [? H]
             end;
      repeat match goal with
             | H : _ <> ","%char |- _ =>
                 apply Ascii.eqb_neq in H; rewrite H
             end;
      reflexivity.
    apply Forall_cons_iff in Hl as [Ha Hl1].
    apply Forall_cons_iff in Hl1 as [Hb Hl2].
    apply Forall_cons_iff in Hl2 as [Hc Hl3].
    destruct (IH (d :: rest)) as [F L]; [cbn in *; lia | exact Hl3 |].
    change (group3_rev (a :: b :: c :: d :: rest))
      with (a :: b :: c :: ","%char :: group3_rev (d :: rest)).
    split.
    + cbn [filter]. rewrite F.
      apply Ascii.eqb_neq in Ha, Hb, Hc. rewrite Ha, Hb, Hc.
      reflexivity.
    + cbn [List.length] in *. rewrite L.
      replace (S (S (S (S (List.length rest)))) - 1)
        with (1 * 3 + (S (List.length rest) - 1)) by lia.
      rewrite Nat.div_add_l by lia. lia.
Qed.

Lemma digits_no_comma (d : Decimal.uint) :
  Forall (fun c => c <> ","%char)
         (list_ascii_of_string (DecimalString.NilZero.string_of_uint d)).
Proof.
  assert (H : Forall (fun c => c <> ","%char)
                (list_ascii_of_string
                   (DecimalString.NilEmpty.string_of_uint d))).
  { induction d; cbn; constructor; trivial; discriminate. }
  destruct d; trivial. cbn. constructor; [discriminate | constructor].
Qed.

Lemma drop_commas_group3 (s : string) :
  Forall (fun c => c <> ","%char) (list_ascii_of_string s) ->
  drop_commas (group3 s) = s
  /\ String.length (group3 s)
     = String.length s + (String.length s - 1) / 3.
Proof.
  intros H. unfold drop_commas, group3.
  rewrite list_ascii_of_string_of_list_ascii.
  set (l := list_ascii_of_string s) in *.
  assert (Hr : Forall (fun c => c <> ","%char) (rev l)).
  { apply Forall_forall. intros c Hc. apply in_rev in Hc.
    rewrite Forall_forall in H. now apply H. }
  destruct (group3_rev_facts (List.length (rev l)) (rev l) (le_n _) Hr)
    as [F L].
  split.
  - assert (E : forall (f : ascii -> bool) (x : list ascii),
               filter f (rev x) = rev (filter f x)).
    { intros f x. induction x as [|a x IHx]; [reflexivity|].
      cbn. rewrite filter_app, IHx. cbn.
      destruct (f a); cbn; [reflexivity | apply app_nil_r]. }
    rewrite E, F, rev_involutive. apply string_list_ascii.
  - assert (Len : forall x, String.length (string_of_list_ascii x)
                            = List.length x).
    { induction x; cbn; congruence. }
    rewrite Len, length_rev, L, length_rev.
    assert (Len2 : List.length l = String.length s).
    { unfold l. clear. induction s; cbn; congruence. }
    now rewrite Len2.
Qed.

End FmtIntFacts.

Lemma string_length_app (a b : string) :
  String.length (a ++ b) = (String.length a + String.length b)%nat.
Proof. induction a as [|c a IH]; cbn; [reflexivity | now rewrite IH]. Qed.

Lemma py_str_abs (n : Z) :
  py_str n = (if (n <? 0)%Z then "-" else "") ++ py_str (Z.abs n).
Proof. destruct n; reflexivity. Qed.

Lemma py_str_abs_digits (n : Z) :
  Forall (fun c => c <> ","%char) (list_ascii_of_string (py_str (Z.abs n))).
Proof.
  unfold py_str. destruct n; cbn [Z.abs Z.to_int];
    apply digits_no_comma.
Qed.

Lemma drop_commas_app (a b : string) :
  drop_commas (a ++ b) = drop_commas a ++ drop_commas b.
Proof.
  unfold drop_commas. induction a as [|c a IH]; cbn.
  - reflexivity.
  - destruct (Ascii.eqb c ","); cbn; now rewrite <- IH.
Qed.

(** X1.  Taking the commas out of [fmt_int n] gives [str(n)], which reads
    back as [n]; the commas add one character for every three digits
    after the first. *)
Theorem fmt_int_round_trip (n : Z) :
  drop_commas (fmt_int n) = py_str n
  /\ parse_int (fmt_int n) = Some n
  /\ String.length (fmt_int n)
     = (String.length (py_str n)
        + (String.length (py_str (Z.abs n)) - 1) / 3)%nat.
Proof.
  destruct (drop_commas_group3 _ (py_str_abs_digits n)) as [D L].
  assert (E : drop_commas (fmt_int n) = py_str n).
  { unfold fmt_int. rewrite drop_commas_app, D, (py_str_abs n).
    now destruct (n <? 0)%Z. }
  split; [exact E|]. split.
  - unfold parse_int. rewrite E. unfold py_str.
    rewrite DecimalString.NilZero.isi.
    + cbn. f_equal. apply DecimalZ.of_to.
    + destruct n; cbn; try discriminate.
      intros H. injection H as H.
      now apply DecimalPos.Unsigned.to_uint_nonnil in H.
    + destruct n; cbn; try discriminate.
      intros H. injection H as H.
      now apply DecimalPos.Unsigned.to_uint_nonnil in H.
  - unfold fmt_int. rewrite (py_str_abs n).
    rewrite !string_length_app, L. lia.
Qed.

(** * More on the filter stage *)

Section SubseqFacts.
Context {A : Type}.

Lemma subseq_refl (l : list A) : subseq l l.
Proof. induction l; [apply subseq_nil | now apply subseq_keep]. Qed.

Lemma subseq_In (l1 l2 : list A) (x : A) :
  subseq l1 l2 -> In x l1 -> In x l2.
Proof.
  induction 1 as [|y l1 l2 H IH|y l1 l2 H IH]; cbn; [tauto| |];
    intuition.
Qed.

Lemma subseq_length (l1 l2 : list A) :
  subseq l1 l2 -> (List.length l1 <= List.length l2)%nat.
Proof. induction 1; cbn; lia. Qed.

Lemma subseq_NoDup (l1 l2 : list A) :
  subseq l1 l2 -> NoDup l2 -> NoDup l1.
Proof.
  induction 1 as [|y l1 l2 H IH|y l1 l2 H IH]; intros N.
  - constructor.
  - inversion N; subst. now apply IH.
  - inversion N as [|? ? Hy N']; subst. constructor; [|now apply IH].
    intros Hin. apply Hy. eapply subseq_In; eassumption.
Qed.

End SubseqFacts.

Lemma iter_filestats_subseq (w : World) (cfg : Config) (paths : list Path) :
  subseq (map path (fst (iter_filestats w cfg paths))) paths.
Proof.
  induction paths as [|p ps IH]; cbn; [constructor|].
  destruct (fst (classify w cfg p)) as [s|r|e] eqn:E.
  - now constructor.
  - destruct (classify_emitted w cfg p r E) as [Hp _].
    destruct (iter_filestats w cfg ps) as [rs e]. cbn in *.
    rewrite Hp. now constructor.
  - cbn. clear. induction (p :: ps); constructor; trivial.
Qed.

(** X2.  The records follow the candidates: their paths are candidates, in
    the order of the candidates and as often at most; each carries the
    size [stat] reports for its path and the extension of its name. *)
Theorem records_follow_candidates (w : World) (cfg : Config)
  (paths : list Path) :
  subseq (map path (fst (iter_filestats w cfg paths))) paths
  /\ (NoDup paths -> NoDup (fst (iter_filestats w cfg paths)))
  /\ (forall r, In r (fst (iter_filestats w cfg paths)) ->
        os_stat w (path r) = Ok (size r) /\ ext r = ext_of w (path r)).
Proof.
  split; [apply iter_filestats_subseq|]. split.
  - intros N. eapply NoDup_map_inv.
    eapply subseq_NoDup; [apply iter_filestats_subseq | exact N].
  - intros r Hr. destruct (iter_filestats_In _ _ _ _ Hr) as [p [_ Hc]].
    destruct (classify_emitted _ _ _ _ Hc) as [<- [Hs [_ He]]]. auto.
Qed.

(** Two runs over the same candidates, the first rejecting wherever it
    differs from the second. *)
Lemma iter_filestats_mono (w1 w2 : World) (cfg1 cfg2 : Config)
  (paths : list Path) :
  (forall p, In p paths ->
     (exists s, fst (classify w1 cfg1 p) = Rejected s)
     \/ fst (classify w1 cfg1 p) = fst (classify w2 cfg2 p)) ->
  snd (iter_filestats w2 cfg2 paths) = None ->
  snd (iter_filestats w1 cfg1 paths) = None
  /\ subseq (fst (iter_filestats w1 cfg1 paths))
            (fst (iter_filestats w2 cfg2 paths)).
Proof.
  induction paths as [|p ps IH]; intros H N; cbn in *.
  - split; [reflexivity | constructor].
  - assert (IH' : snd (iter_filestats w2 cfg2 ps) = None ->
                  snd (iter_filestats w1 cfg1 ps) = None
                  /\ subseq (fst (iter_filestats w1 cfg1 ps))
                            (fst (iter_filestats w2 cfg2 ps)))
      by (intros N'; apply IH; auto).
    destruct (H p (or_introl eq_refl)) as [[s E]|E].
    + rewrite E.
      destruct (fst (classify w2 cfg2 p)) as [s2|r2|e2].
      * now apply IH'.
      * destruct (iter_filestats w2 cfg2 ps) as [rs e]. cbn in *.
        destruct (IH' N) as [I1 I2]. split; [exact I1 | now constructor].
      * discriminate.
    + rewrite E.
      destruct (fst (classify w2 cfg2 p)) as [s2|r2|e2].
      * now apply IH'.
      * destruct (iter_filestats w2 cfg2 ps) as [rs e].
        destruct (iter_filestats w1 cfg1 ps) as [rs1 e1]. cbn in *.
        destruct (IH' N) as [I1 I2]. split; [exact I1 | now constructor].
      * discriminate.
Qed.

(** X3.  Including hidden files only adds records, as long as the larger
    run meets no error. *)
Theorem include_hidden_grows (w : World) (es : list string) (r : Path)
  (policy : string) (globs : list string) (paths : list Path) :
  snd (iter_filestats w (mkConfig es r true policy globs) paths) = None ->
  snd (iter_filestats w (mkConfig es r false policy globs) paths) = None
  /\ subseq (fst (iter_filestats w (mkConfig es r false policy globs) paths))
            (fst (iter_filestats w (mkConfig es r true policy globs) paths)).
Proof.
  apply iter_filestats_mono. intros p _. unfold classify.
  cbn [include_hidden root exts binary_policy exclude_globs negb andb].
  destruct (is_hidden (rel_of r p)).
  - left. now exists SHidden.
  - right. reflexivity.
Qed.

(** X4.  Skipping binaries only removes records: what the policy [skip]
    counts, any other policy counts too, as long as the larger run
    meets no error. *)
Theorem binary_skip_shrinks (w : World) (es : list string) (r : Path)
  (hidden : bool) (policy : string) (globs : list string)
  (paths : list Path) :
  policy <> "skip" ->
  snd (iter_filestats w (mkConfig es r hidden policy globs) paths) = None ->
  snd (iter_filestats w (mkConfig es r hidden "skip" globs) paths) = None
  /\ subseq (fst (iter_filestats w (mkConfig es r hidden "skip" globs) paths))
            (fst (iter_filestats w (mkConfig es r hidden policy globs) paths)).
Proof.
  intros Hp. apply iter_filestats_mono. intros p _. unfold classify, excluded.
  cbn [include_hidden root exts binary_policy exclude_globs].
  apply String.eqb_neq in Hp. rewrite Hp. cbn [String.eqb andb].
  change ("skip" =? "skip") with true. cbn [andb].
  destruct (negb hidden && is_hidden (rel_of r p)); [right; reflexivity|].
  destruct (mem_string (name p) SKIP_FILENAMES); [right; reflexivity|].
  destruct (match globs with [] => false | _ => _ end); [right; reflexivity|].
  destruct (match es with [] => false | _ => _ end); [right; reflexivity|].
  destruct (is_probably_binary w p).
  - left. now exists SBinary.
  - right. destruct (os_stat w p) as [sz|[]]; try reflexivity.
    destruct (sz <=? 0)%Z; reflexivity.
Qed.

Lemma excluded_more (w : World) (es : list string) (r : Path)
  (hidden : bool) (policy : string) (globs more : list string) (p : Path) :
  excluded w (mkConfig es r hidden policy globs) p = true ->
  excluded w (mkConfig es r hidden policy (globs ++ more)) p = true.
Proof.
  unfold excluded. cbn [exclude_globs root].
  destruct globs as [|g gs]; [discriminate|]. cbn [app].
  rewrite !exclude_loop_spec. intros [pat [Hin Hm]].
  exists pat. split; [|exact Hm].
  change (g :: gs ++ more)%list with ((g :: gs) ++ more)%list.
  apply in_or_app. now left.
Qed.

(** X5.  More exclusion patterns only remove records, and cannot introduce
    an error. *)
Theorem more_exclusions_shrink (w : World) (es : list string) (r : Path)
  (hidden : bool) (policy : string) (globs more : list string)
  (paths : list Path) :
  snd (iter_filestats w (mkConfig es r hidden policy globs) paths) = None ->
  snd (iter_filestats w (mkConfig es r hidden policy (globs ++ more)) paths)
    = None
  /\ subseq
       (fst (iter_filestats w (mkConfig es r hidden policy (globs ++ more))
               paths))
       (fst (iter_filestats w (mkConfig es r hidden policy globs) paths)).
Proof.
  apply iter_filestats_mono. intros p _.
  pose proof (excluded_more w es r hidden policy globs more p) as M.
  unfold classify in *.
  cbn [include_hidden root exts binary_policy exclude_globs] in *.
  destruct (negb hidden && is_hidden (rel_of r p)); [right; reflexivity|].
  destruct (mem_string (name p) SKIP_FILENAMES); [right; reflexivity|].
  destruct (excluded w (mkConfig es r hidden policy (globs ++ more)) p)
    eqn:E1.
  - left. now exists SExclude.
  - right.
    destruct (excluded w (mkConfig es r hidden policy globs) p) eqn:E2.
    + specialize (M eq_refl). discriminate.
    + reflexivity.
Qed.

(** X6.  An extension filter only removes records: what it lets through is
    counted without a filter as well. *)
Theorem extension_filter_shrinks (w : World) (es : list string) (r : Path)
  (hidden : bool) (policy : string) (globs : list string)
  (paths : list Path) :
  snd (iter_filestats w (mkConfig [] r hidden policy globs) paths) = None ->
  snd (iter_filestats w (mkConfig es r hidden policy globs) paths) = None
  /\ subseq (fst (iter_filestats w (mkConfig es r hidden policy globs) paths))
            (fst (iter_filestats w (mkConfig [] r hidden policy globs) paths)).
Proof.
  apply iter_filestats_mono. intros p _. unfold classify, excluded.
  cbn [include_hidden root exts binary_policy exclude_globs].
  destruct (negb hidden && is_hidden (rel_of r p)); [right; reflexivity|].
  destruct (mem_string (name p) SKIP_FILENAMES); [right; reflexivity|].
  destruct (match globs with [] => false | _ => _ end); [right; reflexivity|].
  destruct (match es with [] => false | _ => _ end).
  - left. now exists SExtension.
  - right. reflexivity.
Qed.

(** * Paths *)

(** X7.  Hidden segments are looked for below the root only: for a path
    under the root, the segments of the root itself do not count. *)
Theorem hidden_check_below_root (r : Path) (rest : list string) :
  is_hidden (rel_of r (mkPath (absolute r) (segments r ++ rest)))
  = existsb startswith_dot rest.
Proof.
  unfold rel_of. rewrite relative_to_under. reflexivity.
Qed.

(** * Exclusion with the empty pattern *)

(** X8.  An empty exclusion pattern matches every path: with [-x ''] no
    file is counted. *)
Theorem empty_pattern_excludes_all (w : World) (cfg : Config)
  (paths : list Path) :
  In "" (exclude_globs cfg) ->
  iter_filestats w cfg paths = ([], None).
Proof.
  intros H.
  assert (E : forall p, excluded w cfg p = true).
  { intros p. unfold excluded.
    destruct (exclude_globs cfg) as [|g gs] eqn:G; [contradiction|].
    apply exclude_loop_spec. exists "". split; [exact H|].
    right. split.
    - intros [ch [_ []]].
    - left. now exists "", (name p). }
  induction paths as [|p ps IH]; cbn; [reflexivity|].
  unfold classify.
  destruct (negb (include_hidden cfg) && is_hidden (rel_of (root cfg) p));
    [exact IH|].
  destruct (mem_string (name p) SKIP_FILENAMES); [exact IH|].
  rewrite E. exact IH.
Qed.

(** * The sniff *)

Lemma has_nul_In (chunk : list byte) :
  has_nul chunk = true <-> In NUL chunk.
Proof.
  unfold has_nul. rewrite existsb_exists. split.
  - intros [b [Hb E]]. apply Byte.byte_dec_bl in E. now subst.
  - intros H. exists NUL. split; [exact H | reflexivity].
Qed.

(** X9.  A file passes the sniff exactly when it is a regular file that can
    be opened and has no NUL among its first 4096 bytes; what follows
    these bytes is never looked at. *)
Theorem sniff_passes_iff (w : World) (p : Path) :
  (is_probably_binary w p = false
   <-> exists m,
         resolve (fs w) (abs_segments w p) = Ok (File m)
         /\ f_readable m = true
         /\ ~ In NUL (firstn 4096 (f_bytes m)))
  /\ (forall m pre post,
        resolve (fs w) (abs_segments w p) = Ok (File m) ->
        f_readable m = true ->
        f_bytes m = (pre ++ post)%list ->
        List.length pre = 4096%nat ->
        is_probably_binary w p = has_nul pre).
Proof.
  unfold is_probably_binary, open_read. split.
  - destruct (resolve (fs w) (abs_segments w p)) as [[m|m es]|e]; cbn.
    + destruct (f_readable m) eqn:R.
      * split.
        -- intros H. exists m. repeat split; trivial.
           rewrite <- has_nul_In, H. discriminate.
        -- intros [m' [E [_ N]]]. injection E as <-.
           rewrite <- has_nul_In in N. now destruct (has_nul _).
      * split; [discriminate|].
        intros [m' [E [R' _]]]. injection E as <-. congruence.
    + split; [discriminate|]. intros [m' [E _]]. discriminate.
    + split; [discriminate|]. intros [m' [E _]]. discriminate.
  - intros m pre post E R B L. rewrite E. cbn [bind]. rewrite R, B.
    rewrite firstn_app, <- L, firstn_all, Nat.sub_diag, firstn_O.
    now rewrite app_nil_r.
Qed.

(** * Extensions *)

Lemma rfind_dot_split (s : string) (i : nat) :
  rfind_dot s = Some i ->
  exists pre post,
    s = pre ++ String "." post
    /\ String.length pre = i
    /\ has_char "." post = false
    /\ substring i (String.length s - i) s = String "." post.
Proof.
  revert i. induction s as [|c s IH]; intros i H; cbn in H; [discriminate|].
  destruct (rfind_dot s) as [j|] eqn:R.
  - injection H as <-. destruct (IH j eq_refl) as [pre [post [E [L [N S]]]]].
    exists (String c pre), post. cbn. rewrite <- E.
    repeat split; trivial. now rewrite L.
  - destruct (Ascii.eqb c ".") eqn:C; [|discriminate].
    injection H as <-. apply Ascii.eqb_eq in C. subst c.
    exists "", s. cbn. repeat split.
    + clear IH. induction s as [|d s IHs]; [reflexivity|].
      cbn in R |- *. destruct (rfind_dot s); [discriminate|].
      destruct (Ascii.eqb d "."); [discriminate|]. now apply IHs.
    + f_equal. clear. induction s as [|d s IHs]; cbn; congruence.
Qed.

Lemma rfind_dot_of_split (pre post : string) :
  has_char "." post = false ->
  rfind_dot (pre ++ String "." post) = Some (String.length pre).
Proof.
  intros N.
  assert (R : rfind_dot post = None).
  { induction post as [|d s IHs]; [reflexivity|].
    cbn in N |- *. apply orb_false_iff in N as [N1 N2].
    now rewrite (IHs N2), N1. }
  induction pre as [|c pre IH]; cbn.
  - now rewrite R.
  - now rewrite IH.
Qed.

(** X10.  The suffix of a path is what follows the last dot of its name,
    dot included, when that dot is neither the first nor the last
    character; otherwise there is none. *)
Theorem suffix_is_last_dot_part (p : Path) :
  (suffix p <> "" ->
   exists stem tail,
     name p = stem ++ suffix p
     /\ suffix p = String "." tail
     /\ stem <> "" /\ tail <> "" /\ has_char "." tail = false)
  /\ (forall stem tail,
        name p = stem ++ String "." tail ->
        has_char "." tail = false ->
        suffix p = if (String.eqb stem "" || String.eqb tail "")%bool
                   then "" else String "." tail).
Proof.
  unfold suffix. split.
  - destruct (rfind_dot (name p)) as [i|] eqn:R; [|now intros []].
    destruct (rfind_dot_split _ _ R) as [pre [post [E [L [N S]]]]].
    destruct (Nat.ltb 0 i && Nat.ltb i (String.length (name p) - 1))%bool
      eqn:C; [|now intros []].
    intros _. apply andb_prop in C as [C1 C2].
    apply Nat.ltb_lt in C1, C2.
    exists pre, post. rewrite S. repeat split; trivial.
    + intros ->. cbn in L. lia.
    + intros ->. rewrite E, string_length_app in C2. cbn in C2. lia.
  - intros stem tail E N. rewrite E.
    rewrite (rfind_dot_of_split stem tail N).
    pose proof (rfind_dot_split _ _ (rfind_dot_of_split stem tail N))
      as [pre [post [E' [L' [N' S']]]]].
    rewrite S'.
    assert (U : forall a b a' b' : string,
              a ++ String "." b = a' ++ String "." b' ->
              String.length a = String.length a' -> b = b').
    { clear. induction a as [|x a IH]; intros b [|y a'] b' H L;
        cbn in *; try discriminate.
      - now injection H.
      - injection H as _ H. apply (IH _ _ _ H). lia. }
    assert (post = tail) as -> by (symmetry; eapply U; [exact E' | now symmetry]).
    rewrite string_length_app. cbn [String.length].
    destruct stem as [|c stem]; [reflexivity|].
    destruct tail as [|d tail]; cbn [String.eqb orb String.length].
    + destruct (Nat.ltb_spec (S (String.length stem))
                  (S (String.length stem) + 1 - 1)); [lia|].
      now rewrite andb_false_r.
    + destruct (Nat.ltb_spec 0 (S (String.length stem))); [|lia].
      destruct (Nat.ltb_spec (S (String.length stem))
                  (S (String.length stem) + S (S (String.length tail)) - 1));
        [|lia].
      reflexivity.
Qed.

(** * The extension set *)

Lemma default_exts_normal (w : World) (e : string) :
  In e DEFAULT_EXTS -> startswith_dot e = true /\ str_lower w e = e.
Proof.
  unfold DEFAULT_EXTS. intros H.
  repeat (destruct H as [<-|H];
          [split; [reflexivity|];
           rewrite str_lower_ascii by reflexivity; reflexivity|]).
  contradiction.
Qed.

Lemma extension_set_normalised_aux (w : World) (args : Args) :
  a_no_ext_filter args = false ->
  select_exts w args <> []
  /\ forall e, In e (select_exts w args) ->
       startswith_dot e = true /\ is_lowercase w e.
Proof.
  unfold select_exts, is_lowercase. intros H; rewrite H.
  destruct (a_ext args) as [[|x l]|].
  - split; [discriminate|]. intros e He. now apply default_exts_normal.
  - split; [discriminate|]. intros e He. apply in_map_iff in He.
    destruct He as [e0 [<- _]].
    destruct (startswith_dot e0) eqn:S.
    + split; [now apply str_lower_startswith_dot | apply str_lower_idem].
    + split; [reflexivity|].
      change ("." ++ str_lower w e0) with (String "." (str_lower w e0)).
      now rewrite str_lower_dot, str_lower_idem.
  - split; [discriminate|]. intros e He. now apply default_exts_normal.
Qed.

(** X11.  The extension set of a run is empty exactly under
    [--no-ext-filter], which overrides [--ext]; otherwise it is not
    empty, each of its members begins with a dot and is in lower case,
    and with [--ext] the members are the values given, lower-cased,
    with a dot put in front of those that lack one. *)
Theorem extension_set_normalised (w : World) (args : Args) :
  (a_no_ext_filter args = true -> select_exts w args = [])
  /\ (a_no_ext_filter args = false ->
      select_exts w args <> []
      /\ (forall e, In e (select_exts w args) ->
            startswith_dot e = true /\ is_lowercase w e)
      /\ (forall x l e, a_ext args = Some (x :: l) ->
            (In e (select_exts w args) <->
             exists v, In v (x :: l)
               /\ e = if startswith_dot v then str_lower w v
                      else String "." (str_lower w v)))).
Proof.
  split.
  - intros H. unfold select_exts. now rewrite H.
  - intros H.
    destruct (extension_set_normalised_aux w args H) as [H1 H2].
    split; [exact H1|]. split; [exact H2|].
    intros x l e E. unfold select_exts. rewrite H, E.
    rewrite in_map_iff. split; intros [v [Hv1 Hv2]]; exists v.
    + split; [exact Hv2 | now symmetry].
    + split; [now symmetry | exact Hv1].
Qed.

Lemma classify_emitted_ext (w : World) (cfg : Config) (p : Path)
  (r : FileStat) :
  fst (classify w cfg p) = Emitted r ->
  exts cfg = [] \/ In (str_lower w (suffix p)) (exts cfg).
Proof.
  unfold classify.
  destruct (negb (include_hidden cfg) && is_hidden (rel_of (root cfg) p));
    [discriminate|].
  destruct (mem_string (name p) SKIP_FILENAMES); [discriminate|].
  destruct (excluded w cfg p); [discriminate|].
  destruct (exts cfg) as [|e es] eqn:E; [now left|].
  destruct (mem_string (str_lower w (suffix p)) (e :: es)) eqn:M.
  - intros _. right. now apply mem_string_In.
  - discriminate.
Qed.

(** X12.  Unless [--no-ext-filter] is given, a file whose name has no suffix
    is never counted: the group [<none>] cannot appear. *)
Theorem no_suffix_needs_no_filter (w : World) (args : Args) (root_ : Path)
  (paths : list Path) (r : FileStat) :
  a_no_ext_filter args = false ->
  In r (fst (iter_filestats w (config_of w args root_) paths)) ->
  suffix (path r) <> "" /\ ext r <> "<none>".
Proof.
  intros Hn Hr.
  destruct (iter_filestats_In _ _ _ _ Hr) as [p [_ Hc]].
  destruct (classify_emitted _ _ _ _ Hc) as [<- [_ [_ He]]].
  destruct (extension_set_normalised_aux w args Hn) as [Hne Hall].
  destruct (classify_emitted_ext _ _ _ _ Hc) as [E|E];
    cbn [config_of exts] in E; [contradiction|].
  destruct (Hall _ E) as [D _].
  assert (S : suffix (path r) <> "").
  { intros S. rewrite S, str_lower_empty in D. discriminate. }
  split; [exact S|].
  rewrite He. unfold ext_of.
  destruct (String.eqb (str_lower w (suffix (path r))) "") eqn:Z.
  - apply String.eqb_eq in Z. rewrite Z in D. discriminate.
  - intros C. rewrite C in D. discriminate.
Qed.

(** * Discovery *)

Lemma split_on_nonempty (c : ascii) (s : string) : split_on c s <> [].
Proof.
  destruct s as [|a s]; cbn; [discriminate|].
  destruct (Ascii.eqb a c); [discriminate|].
  destruct (split_on c s); discriminate.
Qed.

Lemma join_split_on (c : ascii) (s : string) :
  join (String c "") (split_on c s) = s.
Proof.
  induction s as [|a s IH]; cbn [split_on]; [reflexivity|].
  pose proof (split_on_nonempty c s) as Hne.
  destruct (Ascii.eqb a c) eqn:E.
  - apply Ascii.eqb_eq in E. subst a.
    destruct (split_on c s) as [|w ws]; [contradiction|].
    change (join (String c "") ("" :: w :: ws))
      with ("" ++ String c "" ++ join (String c "") (w :: ws)).
    rewrite IH. reflexivity.
  - destruct (split_on c s) as [|w ws]; [contradiction|].
    destruct ws as [|w' ws].
    + cbn in IH |- *. now rewrite IH.
    + change (join (String c "") (String a w :: w' :: ws))
        with (String a (w ++ String c "" ++ join (String c "") (w' :: ws))).
      change (join (String c "") (w :: w' :: ws))
        with (w ++ String c "" ++ join (String c "") (w' :: ws)) in IH.
      now rewrite IH.
Qed.

Lemma simple_name_facts (s : string) :
  simple_name s = true ->
  has_char "/" s = false /\ s <> "" /\ s <> ".".
Proof.
  unfold simple_name. intros H.
  apply andb_prop in H as [H H3]. apply andb_prop in H as [H1 H2].
  apply negb_true_iff in H1, H2, H3.
  apply String.eqb_neq in H2, H3. auto.
Qed.

Lemma parse_segments_normal (s : string) :
  normal_name s = true -> parse_segments s = split_on "/" s.
Proof.
  unfold normal_name, parse_segments. intros H.
  induction (split_on "/" s) as [|c l IH]; [reflexivity|].
  cbn in H |- *. apply andb_prop in H as [H1 H2].
  destruct (simple_name_facts c H1) as [_ [N1 N2]].
  apply String.eqb_neq in N1, N2. rewrite N1, N2. cbn.
  now rewrite (IH H2).
Qed.

Lemma joinpath_normal (d : Path) (s : string) :
  normal_name s = true ->
  joinpath d s = mkPath (absolute d) (segments d ++ split_on "/" s).
Proof.
  intros H. unfold joinpath. rewrite (parse_segments_normal s H).
  destruct s as [|a s]; [reflexivity|].
  destruct (Ascii.eqb a "/") eqn:E.
  - exfalso. unfold normal_name in H. cbn in H. rewrite E in H.
    cbn in H. discriminate.
  - destruct a as [[] [] [] [] [] [] [] []]; try reflexivity.
    discriminate.
Qed.

Lemma split_on_simple (s : string) :
  has_char "/" s = false -> split_on "/" s = [s].
Proof.
  induction s as [|a s IH]; cbn; [reflexivity|].
  intros H. apply orb_false_iff in H as [H1 H2].
  rewrite H1, (IH H2). reflexivity.
Qed.

Lemma simple_is_normal (s : string) :
  simple_name s = true -> normal_name s = true /\ split_on "/" s = [s].
Proof.
  intros H. destruct (simple_name_facts s H) as [N _].
  unfold normal_name. rewrite (split_on_simple s N). cbn.
  now rewrite H.
Qed.

Lemma joinpath_simple (d : Path) (s : string) :
  simple_name s = true ->
  joinpath d s = mkPath (absolute d) (segments d ++ [s]).
Proof.
  intros H. destruct (simple_is_normal s H) as [N E].
  now rewrite (joinpath_normal d s N), E.
Qed.

Lemma last_app_nonempty {A : Type} (l1 l2 : list A) (d : A) :
  l2 <> [] -> last (l1 ++ l2) d = last l2 d.
Proof.
  intros H. induction l1 as [|x l1 IH]; [reflexivity|].
  cbn [app]. destruct (l1 ++ l2)%list eqn:E.
  - apply app_eq_nil in E. destruct E. contradiction.
  - cbn [last]. exact IH.
Qed.

Lemma joinpath_empty (d : Path) : joinpath d "" = d.
Proof.
  unfold joinpath, parse_segments. cbn. rewrite app_nil_r.
  now destruct d.
Qed.

(** X13.  The candidates of the tracked mode are the entries of the
    NUL-separated listing that are not empty, each decoded and joined
    to the root.  An entry is tested for emptiness before it is
    decoded: one that decodes to nothing is kept, and gives the root
    itself as a candidate.  For an entry that decoding leaves as it is
    and that is made of plain components, the filter sees that very
    name as the relative path, and its last component as the file
    name. *)
Theorem tracked_files_round_trip (w : World) (root_ : Path) (out : string) :
  git_ls_files w root_ = Some out ->
  exists ps,
    git_tracked_files w root_ = Some ps
    /\ (forall p, In p ps <->
          exists raw, In raw (split_on nul out) /\ raw <> ""
                      /\ p = joinpath root_ (utf8_ignore w raw))
    /\ (forall raw, In raw (split_on nul out) -> raw <> "" ->
          utf8_ignore w raw = "" -> In root_ ps)
    /\ (forall raw, In raw (split_on nul out) ->
          utf8_ignore w raw = raw -> normal_name raw = true ->
          In (joinpath root_ raw) ps
          /\ as_posix (rel_of root_ (joinpath root_ raw)) = raw
          /\ name (joinpath root_ raw) = last (split_on "/" raw) "").
Proof.
  intros G. unfold git_tracked_files. rewrite G.
  eexists. split; [reflexivity|].
  assert (M : forall p,
    In p (map (fun p => joinpath root_ (utf8_ignore w p))
              (filter (fun p => negb (String.eqb p "")) (split_on nul out)))
    <-> exists raw, In raw (split_on nul out) /\ raw <> ""
                    /\ p = joinpath root_ (utf8_ignore w raw)).
  { intros p. rewrite in_map_iff. split.
    - intros [s [E H]]. apply filter_In in H as [H1 H2].
      apply negb_true_iff, String.eqb_neq in H2. exists s. auto.
    - intros [s [H1 [H2 E]]]. exists s. split; [now symmetry|].
      apply filter_In. split; [exact H1|].
      now apply negb_true_iff, String.eqb_neq. }
  split; [exact M|]. split.
  - intros raw Hin Hne Hd. apply M. exists raw.
    split; [exact Hin|]. split; [exact Hne|].
    rewrite Hd. symmetry. apply joinpath_empty.
  - intros s Hs Hd N.
    pose proof (split_on_nonempty "/" s) as Hne.
    split; [|split].
    + apply M. exists s. split; [exact Hs|]. split.
      * intros ->. discriminate.
      * now rewrite Hd.
    + rewrite (joinpath_normal root_ s N). unfold rel_of.
      rewrite relative_to_under. unfold as_posix. cbn [absolute segments].
      destruct (split_on "/" s) as [|c l] eqn:E; [contradiction|].
      rewrite <- E. apply (join_split_on "/" s).
    + rewrite (joinpath_normal root_ s N). unfold name. cbn [segments].
      now apply last_app_nonempty.
Qed.

(** ** The walk *)

Lemma node_ind_nested (P : node -> Prop) :
  (forall m, P (File m)) ->
  (forall m es, Forall (fun e => P (snd e)) es -> P (Dir m es)) ->
  forall n, P n.
Proof.
  intros HF HD. fix IH 1. intros [m|m es]; [apply HF|].
  apply HD. revert es. fix IHes 1. intros [|[k c] es].
  - constructor.
  - constructor; [apply IH | apply IHes].
Qed.

Lemma simple_tree_entries (m : dmeta) (es : list (string * node)) :
  simple_tree (Dir m es) = true ->
  Forall (fun e => simple_name (fst e) = true /\ simple_tree (snd e) = true)
         es.
Proof.
  induction es as [|[k c] es IH]; intros H; [constructor|].
  cbn in H. apply andb_prop in H as [H H3]. apply andb_prop in H as [H1 H2].
  constructor; [now split | apply IH; exact H3].
Qed.

Lemma resolve_from_simple_tree (segs : list string) :
  forall (up : list node) (n n' : node),
    Forall (fun x => simple_tree x = true) up ->
    simple_tree n = true ->
    resolve_from up n segs = Ok n' -> simple_tree n' = true.
Proof.
  induction segs as [|c segs IH]; intros up n n' U S R;
    cbn [resolve_from] in R.
  - now injection R as <-.
  - destruct n as [m|m es]; [discriminate|].
    destruct (d_searchable m); [|discriminate].
    destruct (String.eqb c "" || String.eqb c ".")%bool;
      [now apply (IH up (Dir m es))|].
    destruct (String.eqb c "..").
    + destruct up as [|parent up']; [now apply (IH [] (Dir m es))|].
      inversion U; subst. now apply (IH up' parent).
    + destruct (find_entry c es) as [child|] eqn:F; [|discriminate].
      apply (IH (Dir m es :: up) child); [now constructor| |exact R].
      pose proof (simple_tree_entries m es S) as Hall. clear S R.
      induction es as [|[k x] es IHes]; cbn in F; [discriminate|].
      inversion Hall as [|? ? [_ Hx] Hall']; subst.
      destruct (String.eqb k c); [now injection F as <-|].
      now apply IHes.
Qed.

Lemma resolve_simple_tree (segs : list string) (n n' : node) :
  simple_tree n = true -> resolve n segs = Ok n' -> simple_tree n' = true.
Proof.
  intros S R.
  now apply (resolve_from_simple_tree segs [] n n' (Forall_nil _)).
Qed.

Lemma walk_node_prunes (n : node) :
  forall d p,
    simple_tree n = true -> In p (walk_node d n) ->
    exists dirs fn,
      p = mkPath (absolute d) (segments d ++ dirs ++ [fn])
      /\ Forall (fun x => ~ In x PRUNE) dirs.
Proof.
  induction n as [m|m es IH] using node_ind_nested; intros d p S Hp.
  - contradiction.
  - pose proof (simple_tree_entries m es S) as Hall.
    cbn [walk_node] in Hp.
    destruct (d_listable m); [|contradiction].
    apply in_app_or in Hp. destruct Hp as [Hp|Hp].
    + apply in_map_iff in Hp. destruct Hp as [[k c] [E Hin]].
      apply filter_In in Hin as [Hin _]. cbn in E.
      rewrite Forall_forall in Hall. destruct (Hall _ Hin) as [Hk _].
      cbn in Hk. rewrite (joinpath_simple d k Hk) in E.
      exists [], k. split; [now symmetry | constructor].
    + clear S. induction es as [|[k c] es IHes]; [contradiction|].
      inversion IH as [|? ? IHc IH']; subst.
      inversion Hall as [|? ? [Hk Hc] Hall']; subst. cbn in Hk, Hc, IHc.
      destruct c as [mc|mc esc]; [now apply IHes|].
      destruct (mem_string k PRUNE || negb (d_searchable m)) eqn:Pr;
        [now apply IHes|].
      apply in_app_or in Hp. destruct Hp as [Hp|Hp]; [|now apply IHes].
      apply orb_false_iff in Pr as [Pr _].
      destruct (IHc (joinpath d k) p Hc Hp) as [dirs [fn [E F]]].
      rewrite (joinpath_simple d k Hk) in E. cbn [absolute segments] in E.
      exists (k :: dirs), fn. split.
      * rewrite E. f_equal. now rewrite <- app_assoc.
      * constructor; [|exact F]. intros Hin.
        apply mem_string_In in Hin. congruence.
Qed.

(** X14.  In a tree whose entries have plain names, every file the walk finds
    lies below the root, and none of the directories between the root
    and the file bears a pruned name. *)
Theorem walk_prunes (w : World) (root_ p : Path) :
  simple_tree (fs w) = true ->
  In p (walk_all_files w root_) ->
  exists dirs fn,
    p = mkPath (absolute root_) (segments root_ ++ dirs ++ [fn])
    /\ Forall (fun x => ~ In x PRUNE) dirs
    /\ rel_of root_ p = mkPath false (dirs ++ [fn])
    /\ name p = fn.
Proof.
  intros S Hp. unfold walk_all_files in Hp.
  destruct (resolve (fs w) (abs_segments w root_)) as [n|e] eqn:R;
    [|contradiction].
  pose proof (resolve_simple_tree _ _ _ S R) as Sn.
  destruct (walk_node_prunes n root_ p Sn Hp) as [dirs [fn [E F]]].
  exists dirs, fn. repeat split; trivial.
  - rewrite E. unfold rel_of. now rewrite relative_to_under.
  - rewrite E. unfold name. cbn [segments].
    rewrite app_assoc. apply last_last.
Qed.

(** ** Instances *)

Lemma include_hidden_grows_witness :
  snd (iter_filestats w_mixed (mkConfig DEFAULT_EXTS repo false "skip" [])
         mixed_paths) = None
  /\ subseq
       (fst (iter_filestats w_mixed
               (mkConfig DEFAULT_EXTS repo false "skip" []) mixed_paths))
       (fst (iter_filestats w_mixed
               (mkConfig DEFAULT_EXTS repo true "skip" []) mixed_paths)).
Proof.
  apply (include_hidden_grows w_mixed DEFAULT_EXTS repo "skip" []
           mixed_paths).
  reflexivity.
Defined.

Lemma binary_skip_shrinks_witness :
  snd (iter_filestats w_mixed (mkConfig DEFAULT_EXTS repo false "skip" [])
         mixed_paths) = None
  /\ subseq
       (fst (iter_filestats w_mixed
               (mkConfig DEFAULT_EXTS repo false "skip" []) mixed_paths))
       (fst (iter_filestats w_mixed
               (mkConfig DEFAULT_EXTS repo false "include" []) mixed_paths)).
Proof.
  apply (binary_skip_shrinks w_mixed DEFAULT_EXTS repo false "include" []
           mixed_paths).
  - discriminate.
  - reflexivity.
Defined.

Lemma more_exclusions_shrink_witness :
  snd (iter_filestats w_mixed
         (mkConfig DEFAULT_EXTS repo false "skip" ([] ++ ["*.md"]))
         mixed_paths) = None
  /\ subseq
       (fst (iter_filestats w_mixed
               (mkConfig DEFAULT_EXTS repo false "skip" ([] ++ ["*.md"]))
               mixed_paths))
       (fst (iter_filestats w_mixed
               (mkConfig DEFAULT_EXTS repo false "skip" []) mixed_paths)).
Proof.
  apply (more_exclusions_shrink w_mixed DEFAULT_EXTS repo false "skip" []
           ["*.md"] mixed_paths).
  reflexivity.
Defined.

Lemma extension_filter_shrinks_witness :
  snd (iter_filestats w_mixed (mkConfig DEFAULT_EXTS repo false "skip" [])
         mixed_paths) = None
  /\ subseq
       (fst (iter_filestats w_mixed
               (mkConfig DEFAULT_EXTS repo false "skip" []) mixed_paths))
       (fst (iter_filestats w_mixed (mkConfig [] repo false "skip" [])
               mixed_paths)).
Proof.
  apply (extension_filter_shrinks w_mixed DEFAULT_EXTS repo false "skip" []
           mixed_paths).
  reflexivity.
Defined.

Lemma empty_pattern_excludes_all_witness :
  iter_filestats w_mixed (mkConfig DEFAULT_EXTS repo false "skip" [""])
    mixed_paths = ([], None).
Proof.
  apply (empty_pattern_excludes_all w_mixed
           (mkConfig DEFAULT_EXTS repo false "skip" [""]) mixed_paths).
  simpl. left. reflexivity.
Defined.

Lemma no_suffix_needs_no_filter_witness :
  suffix (mkPath true ["repo"; "main.go"]) <> "" /\ ".go" <> "<none>".
Proof.
  apply (no_suffix_needs_no_filter w_mixed (default_args repo) repo
           mixed_paths (mkFileStat (mkPath true ["repo"; "main.go"]) 400 ".go")).
  - reflexivity.
  - vm_compute. left. reflexivity.
Defined.

Lemma tracked_files_round_trip_witness :
  let out := "a/b.py" ++ String nul "" in
  exists ps,
    git_tracked_files w_stale repo = Some ps
    /\ (forall p, In p ps <->
          exists raw, In raw (split_on nul out) /\ raw <> ""
                      /\ p = joinpath repo (utf8_ignore w_stale raw))
    /\ (forall raw, In raw (split_on nul out) -> raw <> "" ->
          utf8_ignore w_stale raw = "" -> In repo ps)
    /\ (forall raw, In raw (split_on nul out) ->
          utf8_ignore w_stale raw = raw -> normal_name raw = true ->
          In (joinpath repo raw) ps
          /\ as_posix (rel_of repo (joinpath repo raw)) = raw
          /\ name (joinpath repo raw) = last (split_on "/" raw) "").
Proof.
  apply (tracked_files_round_trip w_stale repo ("a/b.py" ++ String nul "")).
  reflexivity.
Defined.

Lemma walk_prunes_witness :
  exists dirs fn,
    mkPath true ["repo"; "src"; "a.py"]
    = mkPath (absolute repo) (segments repo ++ dirs ++ [fn])
    /\ Forall (fun x => ~ In x PRUNE) dirs
    /\ rel_of repo (mkPath true ["repo"; "src"; "a.py"])
       = mkPath false (dirs ++ [fn])
    /\ name (mkPath true ["repo"; "src"; "a.py"]) = fn.
Proof.
  apply (walk_prunes w_mixed repo (mkPath true ["repo"; "src"; "a.py"])).
  - reflexivity.
  - vm_compute. do 5 right. left. reflexivity.
Defined.

Local Close Scope Z_scope.

(** * [print_table] *)

Section TableFacts.


Lemma mapM_option_none {A B : Type} (f : A -> option B) (l : list A)
  (x : A) :
  In x l -> f x = None -> mapM_option f l = None.
Proof.
  induction l as [|a l IH]; cbn; [contradiction|].
  intros [<-|H] E.
  - now rewrite E.
  - destruct (f a); [|reflexivity]. now rewrite (IH H E).
Qed.












End TableFacts.


(** X16.  A row with fewer cells than the header makes [print_table] raise
    [IndexError] before it prints anything. *)
Theorem print_table_short_row (rows : list (list string))
  (r : list string) :
  In r rows ->
  List.length r < List.length (hd [] rows) ->
  print_table_lines rows = ([], TableIndexError).
Proof.
  intros Hr Hl. destruct rows as [|header rest]; [contradiction|].
  unfold print_table_lines, table_widths. cbn [hd] in Hl.
  rewrite (mapM_option_none _ _ (List.length r)).
  - reflexivity.
  - apply in_seq. lia.
  - unfold column_width.
    rewrite (mapM_option_none _ _ r Hr); [reflexivity|].
    apply nth_error_None. lia.
Qed.


Lemma print_table_short_row_witness :
  print_table_lines [["ext"; "files"; "bytes"]; [".py"; "12"]]
  = ([], TableIndexError).
Proof.
  apply (print_table_short_row [["ext"; "files"; "bytes"]; [".py"; "12"]]
           [".py"; "12"]).
  - simpl. right. left. reflexivity.
  - simpl. lia.
Defined.

Local Close Scope string_scope.
Local Open Scope Z_scope.

(** * Aggregation *)

Section SumFacts.

Lemma sum_sizes_fold_right (l : list FileStat) :
  sum_sizes l = fold_right Z.add 0 (map size l).
Proof.
  unfold sum_sizes. apply fold_symmetric; intros; lia.
Qed.

Lemma sum_sizes_cons (s : FileStat) (l : list FileStat) :
  sum_sizes (s :: l) = size s + sum_sizes l.
Proof. now rewrite !sum_sizes_fold_right. Qed.

Lemma sum_sizes_app (l1 l2 : list FileStat) :
  sum_sizes (l1 ++ l2) = sum_sizes l1 + sum_sizes l2.
Proof.
  induction l1 as [|s l1 IH]; cbn [app].
  - rewrite (sum_sizes_fold_right []). cbn. lia.
  - rewrite !sum_sizes_cons, IH. lia.
Qed.

Lemma sum_sizes_perm (l1 l2 : list FileStat) :
  Permutation l1 l2 -> sum_sizes l1 = sum_sizes l2.
Proof.
  induction 1; rewrite ?sum_sizes_cons in *; lia.
Qed.


Lemma sum_groups_concat (g : list (string * list FileStat)) :
  sum_groups g = sum_sizes (List.concat (map snd g)).
Proof.
  unfold sum_groups. induction g as [|[k v] g IH]; cbn [map List.concat fold_right snd].
  - reflexivity.
  - rewrite sum_sizes_app, IH. reflexivity.
Qed.

End SumFacts.

Section GroupFacts.

Local Open Scope string_scope.

Lemma add_group_perm (s : FileStat) (g : list (string * list FileStat)) :
  Permutation (List.concat (map snd (add_group s g)))
              (s :: List.concat (map snd g)).
Proof.
  induction g as [|[k v] g IH]; cbn.
  - reflexivity.
  - destruct (String.eqb k (ext s)); cbn.
    + rewrite <- app_assoc. cbn. symmetry. apply Permutation_middle.
    + rewrite IH. symmetry. apply Permutation_middle.
Qed.

Lemma add_group_keys (s : FileStat) (g : list (string * list FileStat)) :
  map fst (add_group s g)
  = if mem_string (ext s) (map fst g) then map fst g
    else (map fst g ++ [ext s])%list.
Proof.
  induction g as [|[k v] g IH]; cbn; [reflexivity|].
  rewrite (String.eqb_sym (ext s) k).
  destruct (String.eqb k (ext s)); cbn; [reflexivity|].
  rewrite IH. fold (mem_string (ext s) (map fst g)).
  now destruct (mem_string (ext s) (map fst g)).
Qed.

Lemma add_group_In (s : FileStat) (g : list (string * list FileStat))
  (k : string) (v : list FileStat) :
  NoDup (map fst g) ->
  In (k, v) (add_group s g) ->
  (k = ext s
   /\ ((exists v0, In (k, v0) g /\ v = (v0 ++ [s])%list)
       \/ (~ In k (map fst g) /\ v = [s])))
  \/ (k <> ext s /\ In (k, v) g).
Proof.
  induction g as [|[k0 v0] g IH]; cbn; intros N H.
  - destruct H as [H|[]]. injection H as <- <-. left. split; [reflexivity|].
    right. split; [tauto | reflexivity].
  - inversion N as [|? ? Hk N']; subst.
    destruct (String.eqb k0 (ext s)) eqn:E.
    + apply String.eqb_eq in E. subst k0.
      destruct H as [H|H].
      * injection H as <- <-. left. split; [reflexivity|].
        left. exists v0. split; [now left | reflexivity].
      * right. split; [|now right].
        intros ->. apply Hk. apply in_map_iff. now exists (ext s, v).
    + apply String.eqb_neq in E.
      destruct H as [H|H].
      * injection H as <- <-. right. split; [exact E | now left].
      * destruct (IH N' H) as [[-> [[v1 [H1 H2]]|[H1 H2]]]|[H1 H2]].
        -- left. split; [reflexivity|]. left. exists v1. split;
             [now right | exact H2].
        -- left. split; [reflexivity|]. right. split; [|exact H2].
           intros [C|C]; [now apply E | now apply H1].
        -- right. split; [exact H1 | now right].
Qed.

Lemma filter_none {A : Type} (f : A -> bool) (l : list A) :
  (forall x, In x l -> f x = false) -> filter f l = [].
Proof.
  induction l as [|a l IH]; intros H; cbn; [reflexivity|].
  rewrite (H a (or_introl eq_refl)). apply IH. intros x Hx. apply H.
  now right.
Qed.

Lemma add_group_inv (s : FileStat) (g : list (string * list FileStat))
  (l : list FileStat) :
  groups_of g l -> groups_of (add_group s g) (l ++ [s]).
Proof.
  intros [N [V K]]. split; [|split].
  - rewrite add_group_keys.
    destruct (mem_string (ext s) (map fst g)) eqn:M; [exact N|].
    apply NoDup_app; [exact N | repeat constructor; tauto |].
    intros a Ha [<-|[]]. apply mem_string_In in Ha. congruence.
  - intros k v H. rewrite filter_app. cbn [filter].
    destruct (add_group_In s g k v N H)
      as [[-> [[v0 [H1 ->]]|[H1 ->]]]|[H1 H2]].
    + destruct (V _ _ H1) as [_ E]. rewrite String.eqb_refl, <- E.
      split; [now destruct v0 | reflexivity].
    + rewrite String.eqb_refl. split; [discriminate|].
      replace (filter (fun s0 => String.eqb (ext s0) (ext s)) l) with
        (@nil FileStat); [reflexivity|].
      symmetry. apply filter_none.
      intros x Hx. apply String.eqb_neq. intros E.
      apply H1. rewrite <- E. now apply K.
    + destruct (V _ _ H2) as [Hne E].
      assert (String.eqb (ext s) k = false) as ->
        by (apply String.eqb_neq; congruence).
      now rewrite app_nil_r.
  - intros x Hx. rewrite add_group_keys. apply in_app_or in Hx.
    destruct (mem_string (ext s) (map fst g)) eqn:M.
    + destruct Hx as [Hx|[<-|[]]]; [now apply K|].
      now apply mem_string_In.
    + apply in_or_app. destruct Hx as [Hx|[<-|[]]];
        [left; now apply K | right; now left].
Qed.

End GroupFacts.

Lemma group_fold_inv (stats : list FileStat)
  (g : list (string * list FileStat)) (l : list FileStat) :
  groups_of g l ->
  Permutation (List.concat (map snd g)) l ->
  groups_of (fold_left (fun g s => add_group s g) stats g) (l ++ stats)
  /\ Permutation
       (List.concat (map snd (fold_left (fun g s => add_group s g) stats g)))
       (l ++ stats).
Proof.
  revert g l. induction stats as [|s stats IH]; intros g l G P; cbn.
  - now rewrite app_nil_r.
  - replace (l ++ s :: stats)%list with ((l ++ [s]) ++ stats)%list
      by (now rewrite <- app_assoc).
    apply IH; [now apply add_group_inv|].
    rewrite add_group_perm, P. apply Permutation_cons_append.
Qed.

Lemma group_by_ext_inv (stats : list FileStat) :
  groups_of (group_by_ext stats) stats
  /\ Permutation (List.concat (map snd (group_by_ext stats))) stats.
Proof.
  apply (group_fold_inv stats [] []).
  - split; [constructor|]. split; [intros k v []|intros s []].
  - reflexivity.
Qed.

(** X17.  The groups of the extension table partition the records: every
    extension of a record is the key of exactly one group, a group
    holds, in their order, exactly the records of its extension and is
    never empty, and the byte sums of the groups add up to the total.
    The rows of the table are these groups by descending byte sum. *)
Theorem extension_groups_partition (stats : list FileStat) :
  let groups := group_by_ext stats in
  let rows := sorted_desc (fun g => sum_sizes (snd g)) groups in
  NoDup (map fst groups)
  /\ (forall s, In s stats -> In (ext s) (map fst groups))
  /\ (forall k v, In (k, v) groups ->
        v <> [] /\ v = filter (fun s => String.eqb (ext s) k) stats)
  /\ sum_groups groups = sum_sizes stats
  /\ Permutation rows groups
  /\ StronglySorted (fun a b => sum_sizes (snd b) <= sum_sizes (snd a)) rows.
Proof.
  intros groups rows.
  destruct (group_by_ext_inv stats) as [[N [V K]] P].
  split; [exact N|]. split; [exact K|]. split; [exact V|].
  split; [rewrite sum_groups_concat; now apply sum_sizes_perm|].
  split; [apply sorted_desc_perm|].
  apply (sorted_desc_sorted (fun g => sum_sizes (snd g))).
Qed.

(** * Ties *)

Lemma insert_desc_filter {A : Type} (key : A -> Z) (k : Z) (x : A)
  (l : list A) :
  StronglySorted (fun a b => key b <= key a) l ->
  filter (fun y => key y =? k) (insert_desc key x l)
  = filter (fun y => key y =? k) (x :: l).
Proof.
  induction 1 as [|y l Hs IH Hy]; [reflexivity|].
  cbn [insert_desc]. destruct (key x <? key y) eqn:E; [|reflexivity].
  apply Z.ltb_lt in E. cbn [filter] in *. rewrite IH.
  destruct (key x =? k) eqn:Ex; [|reflexivity].
  destruct (key y =? k) eqn:Ey; [|reflexivity].
  apply Z.eqb_eq in Ex, Ey. lia.
Qed.

(** X18.  The sort of the report is stable: records with the same key keep
    the order in which they were found, in the list of the largest
    files as among groups of equal byte sum. *)
Theorem sorted_desc_stable {A : Type} (key : A -> Z) (k : Z) (l : list A) :
  filter (fun y => key y =? k) (sorted_desc key l)
  = filter (fun y => key y =? k) l.
Proof.
  induction l as [|x l IH]; [reflexivity|].
  cbn [sorted_desc fold_right].
  rewrite insert_desc_filter by apply (sorted_desc_sorted key).
  cbn [filter]. fold (sorted_desc key l). now rewrite IH.
Qed.

(** * Runs that succeed *)




Section PrintFacts.
Variable w : World.









End PrintFacts.



Local Open Scope string_scope.

(** A file name that the output stream cannot encode ends the run in
    the middle of the report: with [--all] both files of [/repo] are
    counted, the header and the extension table are printed, and the
    table of the largest files breaks off after the row of [a.py]. *)
Example unencodable_name_ends_report :
  let out := main w_raw (mkArgs repo true None false false [] "skip" 10) in
  exit_code out = 1
  /\ stderr out = [ETraceback UnicodeEncodeError]
  /\ In (LFilesCounted 2) (stdout out)
  /\ last (stdout out) LBlank
     = LRow [CInt 100; CInt 25; CInt 33; CPath (mkPath false ["a.py"])].
Proof.
  repeat split; try reflexivity. vm_compute. tauto.
Qed.

(** An entry of the listing is skipped when its bytes are empty, not
    when its decoded text is: the entry made of the byte 255 decodes
    to nothing and gives the root itself as a candidate, and the file
    with that byte in its name is looked for under a name it does not
    have. *)
Example undecodable_entries :
  git_tracked_files w_raw repo
  = Some [mkPath true ["repo"; "b.py"]; repo; mkPath true ["repo"; "a.py"]]
  /\ total_files w_raw (default_args repo) = Some 1.
Proof. split; reflexivity. Qed.

Local Close Scope string_scope.


(** * The spread *)

Lemma spread14_small :
  forallb spread14_ok (map Z.of_nat (seq 1588 1412)) = true.
Proof. vm_compute. reflexivity. Qed.

Lemma summary_fourteen (b : Z) :
  1588 <= b < 2 ^ 53 + 3 ->
  summary (b / 4) (b / 3) = Ok ((b / 4 + b / 3) / 2, 14).
Proof.
  intros Hb.
  destruct (Z.lt_ge_cases b 3000) as [Hs|Hs].
  - pose proof spread14_small as F. rewrite forallb_forall in F.
    assert (Hin : In b (map Z.of_nat (seq 1588 1412))).
    { apply in_map_iff. exists (Z.to_nat b). split; [lia|].
      apply in_seq. lia. }
    specialize (F b Hin). unfold spread14_ok in F.
    destruct (summary (b / 4) (b / 3)) as [[avg pct]|]; [|discriminate].
    apply andb_prop in F as [F1 F2].
    apply Z.eqb_eq in F1, F2. now subst.
  - destruct (summary_of_floors b ltac:(lia)) as [pct [E [_ Hn]]].
    rewrite E. do 2 f_equal.
    pose proof (Z.div_mod b 4 ltac:(lia)).
    pose proof (Z.mod_pos_bound b 4 ltac:(lia)).
    pose proof (Z.div_mod b 3 ltac:(lia)).
    pose proof (Z.mod_pos_bound b 3 ltac:(lia)).
    set (l := b / 4) in *. set (h := b / 3) in *.
    pose proof (Z.div_mod (l + h) 2 ltac:(lia)).
    pose proof (Z.mod_pos_bound (l + h) 2 ltac:(lia)).
    set (avg := (l + h) / 2) in *.
    assert (Ha : 0 < avg) by lia.
    specialize (Hn ltac:(lia)). unfold nearest_int in Hn.
    assert (13 * avg < pct * avg < 15 * avg) by lia.
    nia.
Qed.

(** X20.  From 1588 bytes on (and below [2^53 + 3]) the summary line always
    reports a spread of 14 percent, whatever was counted; for 1587
    bytes it reports 15. *)
Theorem spread_is_fourteen (b low high : Z) :
  1588 <= b < 2 ^ 53 + 3 ->
  estimate_tokens b = Ok (low, high) ->
  summary low high = Ok ((low + high) / 2, 14)
  /\ summary (1587 / 4) (1587 / 3) = Ok (462, 15).
Proof.
  intros Hb He. split; [|vm_compute; reflexivity].
  rewrite (estimate_tokens_exact b ltac:(lia)) in He.
  injection He as <- <-. now apply summary_fourteen.
Qed.

Lemma spread_is_fourteen_witness :
  summary 500 666 = Ok ((500 + 666) / 2, 14)
  /\ summary (1587 / 4) (1587 / 3) = Ok (462, 15).
Proof.
  apply (spread_is_fourteen 2000 500 666).
  - vm_compute. split; [discriminate | reflexivity].
  - reflexivity.
Defined.
